(** * Google TTS podcast generator: turn generation, script parsing and
    script conversion (src/google_podcast_server.py).

    Python strings are modelled as [String.string] (ASCII); a function
    that raises returns [None]. *)

From Stdlib Require Import String Ascii List Bool ZArith NArith Arith Lia.
From Stdlib Require Import Sorting.Sorted Sorting.Permutation.
Import ListNotations.
Open Scope list_scope.
Open Scope string_scope.
Open Scope nat_scope.

(** ** Python string helpers *)

Definition nl : ascii := Ascii.ascii_of_nat 10.

(** [str.isspace] on ASCII: \t \n \v \f \r, \x1c..\x1f and space. *)
Definition is_space (c : ascii) : bool :=
  let n := Ascii.nat_of_ascii c in
  ((9 <=? n) && (n <=? 13)) || ((28 <=? n) && (n <=? 32)).

Fixpoint lstrip (s : string) : string :=
  match s with
  | EmptyString => EmptyString
  | String c s' => if is_space c then lstrip s' else s
  end.

Fixpoint rstrip (s : string) : string :=
  match s with
  | EmptyString => EmptyString
  | String c s' =>
      match rstrip s' with
      | EmptyString => if is_space c then EmptyString else String c EmptyString
      | r => String c r
      end
  end.

(** [str.strip()] *)
Definition strip (s : string) : string := rstrip (lstrip s).

(** [c in s] for a one-character [c] *)
Fixpoint has_char (c : ascii) (s : string) : bool :=
  match s with
  | EmptyString => false
  | String x s' => Ascii.eqb x c || has_char c s'
  end.

(** [s.startswith(p)] *)
Fixpoint startswith (p s : string) : bool :=
  match p, s with
  | EmptyString, _ => true
  | String a p', String b s' => Ascii.eqb a b && startswith p' s'
  | String _ _, EmptyString => false
  end.

Definition cons_head (c : ascii) (r : list string) : list string :=
  match r with
  | h :: t => String c h :: t
  | [] => [String c EmptyString]
  end.

(** [s.split(c)] for a one-character separator *)
Fixpoint split_char (c : ascii) (s : string) : list string :=
  match s with
  | EmptyString => [EmptyString]
  | String x s' =>
      if Ascii.eqb x c then EmptyString :: split_char c s'
      else cons_head x (split_char c s')
  end.

(** [s.split('\n\n')]: non-overlapping, left to right *)
Fixpoint split_nlnl (s : string) : list string :=
  match s with
  | EmptyString => [EmptyString]
  | String a t =>
      match t with
      | String b s' =>
          if Ascii.eqb a nl && Ascii.eqb b nl then EmptyString :: split_nlnl s'
          else cons_head a (split_nlnl t)
      | EmptyString => [String a EmptyString]
      end
  end.

(** [s.split(c, 1)] when [c in s]: the parts before and after the first [c] *)
Fixpoint split_first (c : ascii) (s : string) : option (string * string) :=
  match s with
  | EmptyString => None
  | String x s' =>
      if Ascii.eqb x c then Some (EmptyString, s')
      else match split_first c s' with
           | Some (a, b) => Some (String x a, b)
           | None => None
           end
  end.

(** [str.upper()] on ASCII *)
Definition upper_char (c : ascii) : ascii :=
  let n := Ascii.nat_of_ascii c in
  if (97 <=? n) && (n <=? 122) then Ascii.ascii_of_nat (n - 32) else c.

Fixpoint upper (s : string) : string :=
  match s with
  | EmptyString => EmptyString
  | String c s' => String (upper_char c) (upper s')
  end.

(** [sep.join(l)] *)
Fixpoint join (sep : string) (l : list string) : string :=
  match l with
  | [] => EmptyString
  | [x] => x
  | x :: l' => x ++ sep ++ join sep l'
  end.

Definition NL : string := String nl EmptyString.

(** ** Speaker registry and format catalog *)

Definition GOOGLE_SPEAKERS : list string := ["R"; "S"; "T"; "U"].

Definition is_google_speaker (s : string) : bool :=
  existsb (String.eqb s) GOOGLE_SPEAKERS.

Record format_info := {
  description : string;
  speakers : list string;
  roles : list (string * string)
}.

Definition dialogue_format : format_info :=
  {| description := "Two-person conversational format";
     speakers := ["R"; "S"]; roles := [] |}.

Definition PODCAST_FORMATS : list (string * format_info) := [
  ("dialogue", dialogue_format);
  ("interview", {| description := "Host interviewing an expert";
                   speakers := ["R"; "S"];
                   roles := [("R", "Host"); ("S", "Expert")] |});
  ("roundtable", {| description := "Multi-person discussion (up to 4 speakers)";
                    speakers := ["R"; "S"; "T"; "U"]; roles := [] |});
  ("storytelling", {| description := "Narrative with character voices";
                      speakers := ["R"; "S"; "T"];
                      roles := [("R", "Narrator"); ("S", "Character 1");
                                ("T", "Character 2")] |});
  ("educational", {| description := "Teaching format with Q&A";
                     speakers := ["R"; "S"];
                     roles := [("R", "Teacher"); ("S", "Student")] |});
  ("debate", {| description := "Point-counterpoint discussion";
                speakers := ["R"; "S"; "T"];
                roles := [("R", "Moderator"); ("S", "Advocate");
                          ("T", "Opponent")] |})
].

Fixpoint assoc {A} (k : string) (l : list (string * A)) : option A :=
  match l with
  | [] => None
  | (k', v) :: l' => if String.eqb k k' then Some v else assoc k l'
  end.

(** [PODCAST_FORMATS.get(format_type, PODCAST_FORMATS["dialogue"])] *)
Definition get_format (format_type : string) : format_info :=
  match assoc format_type PODCAST_FORMATS with
  | Some f => f
  | None => dialogue_format
  end.

(** ** generate_dialogue_turns *)

Record turn := { speaker : string; text : string }.

(** [additional_context] as far as the generator reads it: the binding of
    ["key_points"], if present.  A context holding [key_points] is a
    non-empty dict, so [additional_context and "key_points" in
    additional_context] is exactly "the key is present". *)
Definition context := option (list string).

(** [lst[i]] for an index known to be in range *)
Definition at_ (l : list string) (i : nat) : string := nth i l EmptyString.

Definition content_prompts : list string := [
  "What's the most important thing people should understand?";
  "Can you give us a specific example?";
  "How does this impact our daily lives?";
  "What are the common misconceptions?";
  "What does the future hold?";
  "What challenges do we face?";
  "Are there any surprising aspects?";
  "How can people get involved?";
  "What's your personal experience with this?";
  "What advice would you give?"
].

Definition responses : list string := [
  "That's a great question. Let me explain...";
  "Actually, it's quite fascinating when you look at it closely...";
  "People often don't realize that...";
  "From my perspective, the key is...";
  "What's really interesting is...";
  "The data shows us that...";
  "In my experience...";
  "Here's what I've learned...";
  "The breakthrough came when...";
  "This reminds me of..."
].

Definition reactions : list string := [
  "I'd like to add to that point...";
  "That's interesting, but have you considered...";
  "Building on what was just said...";
  "From another angle..."
].

Definition opening (topic format_type : string) (spk : list string) : list turn :=
  if String.eqb format_type "interview" then
    [ {| speaker := "R"; text := "Welcome to today's discussion about " ++ topic
           ++ ". I'm here with an expert who's going to share fascinating insights with us." |};
      {| speaker := "S";
         text := "Thank you for having me! I'm excited to dive into this topic with your listeners." |} ]
  else if String.eqb format_type "debate" then
    [ {| speaker := "R"; text := "Welcome to our debate on " ++ topic
           ++ ". We have two distinguished speakers with opposing viewpoints." |};
      {| speaker := "S";
         text := "I'm here to argue for the positive aspects and potential benefits." |};
      {| speaker := "T";
         text := "And I'll be presenting the concerns and challenges we need to consider." |} ]
  else
    {| speaker := at_ spk 0; text := "Let's explore " ++ topic ++ " together." |}
    :: (if 1 <? length spk then
          [ {| speaker := at_ spk 1;
               text := "Absolutely! This is such a relevant topic right now." |} ]
        else []).

(** The response text of iteration [i]; [None] is the [ZeroDivisionError]
    of [i % len(additional_context["key_points"])] on an empty list. *)
Definition response_text (topic : string) (ctx : context) (i : nat) : option string :=
  let response_intro := at_ responses (i mod length responses) in
  match ctx with
  | Some kp =>
      match kp with
      | [] => None
      | _ => let point := at_ kp (i mod length kp) in
             Some (response_intro ++ " When it comes to " ++ point ++ " in " ++ topic
                   ++ ", we're seeing significant developments.")
      end
  | None => Some (response_intro ++ " " ++ topic ++ " has many dimensions we need to consider.")
  end.

(** One iteration of the main loop. *)
Definition body_step (topic : string) (ctx : context) (spk : list string) (i : nat)
  : option (list turn) :=
  let question := {| speaker := at_ spk 0;
                     text := at_ content_prompts (i mod length content_prompts) |} in
  match response_text topic ctx i with
  | None => None
  | Some rt =>
      let response := {| speaker := at_ spk (1 mod length spk); text := rt |} in
      let reaction :=
        if (2 <? length spk) && (i mod 3 =? 0) then
          [ {| speaker := at_ spk (2 mod length spk);
               text := at_ reactions (i mod length reactions) |} ]
        else [] in
      Some (question :: response :: reaction)
  end.

(** [for i in range(start, start + fuel)] over [body_step]. *)
Fixpoint body (topic : string) (ctx : context) (spk : list string) (i fuel : nat)
  : option (list turn) :=
  match fuel with
  | O => Some []
  | S f =>
      match body_step topic ctx spk i with
      | None => None
      | Some ts =>
          match body topic ctx spk (S i) f with
          | None => None
          | Some rest => Some (ts ++ rest)%list
          end
      end
  end.

Definition closing (topic : string) (spk : list string) : list turn :=
  {| speaker := at_ spk 0; text := "This has been an enlightening discussion about "
       ++ topic ++ ". Any final thoughts?" |}
  :: (if 1 <? length spk then
        [ {| speaker := at_ spk 1;
             text := "The key takeaway is to stay informed and engaged with these developments." |} ]
      else [])
  ++ [ {| speaker := at_ spk 0; text := "Thank you for joining us today. Until next time!" |} ]%list.

(** [len(range(min(num_turns - 4, len(content_prompts))))] *)
Definition loop_count (duration_minutes : Z) : nat :=
  Z.to_nat (Z.min (duration_minutes * 2 - 4) (Z.of_nat (length content_prompts))).

Definition generate_dialogue_turns (topic format_type : string) (duration_minutes : Z)
  (additional_context : context) : option (list turn) :=
  let format_info := get_format format_type in
  let spk := speakers format_info in
  match body topic additional_context spk 0 (loop_count duration_minutes) with
  | None => None
  | Some b => Some (opening topic format_type spk ++ b ++ closing topic spk)%list
  end.

(** ** parse_google_script *)

(** The tail [\s*(.+)$] of a pattern, run on the text [r] after the
    [:].  The greedy [\s*] gives back whitespace one character at a
    time; [.+] takes the rest, which must be non-empty and free of [\n]
    except for one final [\n] that [$] may stand before.  The result is
    group [.+]. *)
Fixpoint dot_plus_end (r : string) : option string :=
  match r with
  | EmptyString => None
  | String c EmptyString => if Ascii.eqb c nl then None else Some r
  | String c r' =>
      if Ascii.eqb c nl then None
      else match dot_plus_end r' with
           | Some g => Some (String c g)
           | None => if String.eqb r' NL then Some (String c EmptyString) else None
           end
  end.

(** [\s*] followed by the tail above: the greedy [\s*] first tries to eat
    [c] when [c] is whitespace. *)
Fixpoint ws_then_dot_plus_end (r : string) : option string :=
  match r with
  | EmptyString => None
  | String c r' =>
      if is_space c then
        match ws_then_dot_plus_end r' with
        | Some g => Some g
        | None => dot_plus_end r
        end
      else dot_plus_end r
  end.

(** [re.match(r'^([RSTU]):\s*(.+)$', line)]: groups 1 and 2 *)
Definition match_colon (line : string) : option (string * string) :=
  match line with
  | String c (String col rest) =>
      if is_google_speaker (String c EmptyString) && Ascii.eqb col ":" then
        match ws_then_dot_plus_end rest with
        | Some g => Some (String c EmptyString, g)
        | None => None
        end
      else None
  | _ => None
  end.

Definition pipe : ascii := "|".
Definition colon : ascii := ":".

(** The body of the [for line in lines] loop: the turn the line adds. *)
Definition parse_line (line0 : string) : option turn :=
  let line := strip line0 in
  if String.eqb line "" || startswith "#" line || startswith "//" line then None
  else if has_char pipe line then
    match split_first pipe line with
    | Some (p0, p1) =>
        let spk := upper (strip p0) in
        let txt := strip p1 in
        if is_google_speaker spk && negb (String.eqb txt "") then
          Some {| speaker := spk; text := txt |}
        else None
    | None => None
    end
  else if has_char colon line then
    match match_colon line with
    | Some (spk, g) =>
        let txt := strip g in
        if negb (String.eqb txt "") then Some {| speaker := spk; text := txt |} else None
    | None => None
    end
  else None.

Fixpoint filter_some {A} (l : list (option A)) : list A :=
  match l with
  | [] => []
  | Some x :: l' => x :: filter_some l'
  | None :: l' => filter_some l'
  end.

(** [speakers = ["R", "S"]; speakers[i % 2]] over the non-empty paragraphs *)
Fixpoint assign_paragraphs (i : nat) (paras : list string) : list turn :=
  match paras with
  | [] => []
  | p :: ps => {| speaker := at_ ["R"; "S"] (i mod 2); text := p |}
               :: assign_paragraphs (S i) ps
  end.

Definition paragraphs (script : string) : list string :=
  filter (fun p => negb (String.eqb p "")) (map strip (split_nlnl script)).

Definition parse_google_script (script : string) : list turn :=
  let lines := split_char nl (strip script) in
  let turns := filter_some (map parse_line lines) in
  match turns with
  | [] => if String.eqb (strip script) "" then []
          else assign_paragraphs 0 (paragraphs script)
  | _ => turns
  end.

(** The serialisation of [call_tool] (generate_google_script):
    ["\n".join([f"{turn['speaker']}|{turn['text']}" for turn in turns])] *)
Definition turn_line (t : turn) : string := speaker t ++ "|" ++ text t.

Definition serialize (ts : list turn) : string := join NL (map turn_line ts).

(** ** call_tool, convert_to_google_format *)

(** [[A-Za-z\s\-\'\.]] *)
Definition label_char (c : ascii) : bool :=
  let n := Ascii.nat_of_ascii c in
  ((65 <=? n) && (n <=? 90)) || ((97 <=? n) && (n <=? 122)) || is_space c
  || Ascii.eqb c "-" || Ascii.eqb c "'" || Ascii.eqb c ".".

Section LabelPattern.

(** What the pattern has after its final [:] ([\s*] for the detection
    pattern, [\s*(.+)$] for the conversion pattern), with its group. *)
Variable tail : string -> option string.

(** [\s*:] then the tail.  A shorter [\s*] leaves a whitespace
    character where [:] is needed, so only the longest one can match. *)
Definition colon_tail (r : string) : option string :=
  match lstrip r with
  | String c r' => if Ascii.eqb c colon then tail r' else None
  | EmptyString => None
  end.

(** [.*?\]] then [\s*:] and the tail: the lazy [.*?] tries the
    shortest run first and cannot cross a [\n]. *)
Fixpoint lazy_close (s : string) : option string :=
  match s with
  | EmptyString => None
  | String c s' =>
      match (if Ascii.eqb c "]" then colon_tail s' else None) with
      | Some g => Some g
      | None => if Ascii.eqb c nl then None else lazy_close s'
      end
  end.

(** The optional group [(?:\s*\[.*?\])?], tried first, then skipped. *)
Definition after_label (r : string) : option string :=
  match (match lstrip r with
         | String c r' => if Ascii.eqb c "[" then lazy_close r' else None
         | EmptyString => None
         end) with
  | Some g => Some g
  | None => colon_tail r
  end.

(** The lazy group [([A-Za-z\s\-\'\.]+?)]: the shortest label for which
    the rest of the pattern matches; [acc] is the label read so far. *)
Fixpoint label_search (acc s : string) : option (string * string) :=
  match s with
  | EmptyString => None
  | String c s' =>
      if label_char c then
        let acc' := acc ++ String c EmptyString in
        match after_label s' with
        | Some g => Some (acc', g)
        | None => label_search acc' s'
        end
      else None
  end.

Definition match_label (line : string) : option (string * string) :=
  label_search EmptyString line.

End LabelPattern.

(** [re.match(r'^([A-Za-z\s\-\'\.]+?)(?:\s*\[.*?\])?\s*:\s*', line)]:
    group 1 *)
Definition detect_match (line : string) : option string :=
  option_map fst (match_label (fun _ => Some EmptyString) line).

(** [re.match(r'^([A-Za-z\s\-\'\.]+?)(?:\s*\[.*?\])?\s*:\s*(.+)$', line)]:
    groups 1 and 2 *)
Definition convert_match (line : string) : option (string * string) :=
  match_label ws_then_dot_plus_end line.

(** The detection loop over [script.split('\n')], building [speakers]. *)
Fixpoint detect_loop (spk : list string) (lines : list string) : list string :=
  match lines with
  | [] => spk
  | line :: ls =>
      let spk' :=
        if has_char colon line then
          match detect_match line with
          | Some g1 =>
              let sp := strip g1 in
              if negb (String.eqb sp "") && negb (existsb (String.eqb sp) spk)
              then (spk ++ [sp])%list else spk
          | None => spk
          end
        else spk in
      detect_loop spk' ls
  end.

Definition detect_speakers (script : string) : list string :=
  detect_loop [] (split_char nl script).

Definition google_ids : list string := ["R"; "S"; "T"; "U"].

(** [for i, speaker in enumerate(speakers[:4]): speaker_mapping[speaker] =
    google_ids[i]] on an empty dict; the keys are distinct, so each
    assignment appends an entry. *)
Fixpoint assign_ids (i : nat) (spk : list string) : list (string * string) :=
  match spk with
  | [] => []
  | sp :: l => (sp, at_ google_ids i) :: assign_ids (S i) l
  end.

Definition auto_mapping (script : string) : list (string * string) :=
  assign_ids 0 (firstn 4 (detect_speakers script)).

(** The body of the conversion loop: the converted line, if any. *)
Definition convert_line (speaker_mapping : list (string * string)) (line0 : string)
  : option string :=
  let line := strip line0 in
  if String.eqb line "" then None
  else if has_char colon line then
    match convert_match line with
    | Some (g1, g2) =>
        let sp := strip g1 in
        let txt := strip g2 in
        match assoc sp speaker_mapping with
        | Some google_id =>
            if negb (String.eqb google_id "") && negb (String.eqb txt "")
            then Some (google_id ++ "|" ++ txt) else None
        | None => None
        end
    | None => None
    end
  else None.

Definition converted_lines (script : string) (speaker_mapping : list (string * string))
  : list string :=
  filter_some (map (convert_line speaker_mapping) (split_char nl script)).

Inductive convert_result :=
| ConvertMissingScript                 (* "Error: script parameter is required" *)
| ConvertNoDialogue                    (* "Error: Could not convert script. ..." *)
| ConvertKeyError                      (* GOOGLE_SPEAKERS[v] raises KeyError *)
| ConvertOk (mapping : list (string * string)) (converted_script : string).

(** The [convert_to_google_format] branch of [call_tool]; the reply lists
    [GOOGLE_SPEAKERS[v]['description']] for every entry of the mapping. *)
Definition convert_to_google_format (script : string)
  (speaker_mapping : list (string * string)) : convert_result :=
  if String.eqb script "" then ConvertMissingScript
  else
    let m := match speaker_mapping with
             | [] => auto_mapping script
             | _ => speaker_mapping
             end in
    match converted_lines script m with
    | [] => ConvertNoDialogue
    | cl => if forallb (fun kv => is_google_speaker (snd kv)) m
            then ConvertOk m (join NL cl) else ConvertKeyError
    end.

(** ** Speaker registry entries *)

(** The entries of [GOOGLE_SPEAKERS]: its keys ["name"], ["personality"]
    and ["description"]. *)
Record speaker_entry := {
  sp_name : string;
  sp_personality : string;
  sp_description : string
}.

Definition GOOGLE_SPEAKER_INFO : list (string * speaker_entry) := [
  ("R", {| sp_name := "Speaker R"; sp_personality := "warm_engaging";
           sp_description := "Friendly, conversational voice suitable for hosts" |});
  ("S", {| sp_name := "Speaker S"; sp_personality := "analytical";
           sp_description := "Clear, informative voice suitable for experts" |});
  ("T", {| sp_name := "Speaker T"; sp_personality := "energetic";
           sp_description := "Dynamic voice suitable for enthusiastic commentary" |});
  ("U", {| sp_name := "Speaker U"; sp_personality := "contemplative";
           sp_description := "Thoughtful voice suitable for deeper discussions" |})
].

(** ** generate_google_tts_prompt *)

(** [str(n)] for a non-negative integer: decimal digits, most significant
    first. *)
Fixpoint digits_of (fuel : nat) (n : N) (acc : string) : string :=
  match fuel with
  | O => acc
  | S f =>
      let acc' := String (Ascii.ascii_of_N (48 + N.modulo n 10)) acc in
      if (n <? 10)%N then acc' else digits_of f (N.div n 10) acc'
  end.

Definition str_N (n : N) : string := digits_of (S (N.size_nat n)) n EmptyString.

(** [str(z)] for a Python [int]. *)
Definition str_Z (z : Z) : string :=
  if (z <? 0)%Z then "-" ++ str_N (Z.to_N (- z)) else str_N (Z.to_N z).

Definition DQ : ascii := Ascii.ascii_of_nat 34.

(** The first f-string, up to and including "SPEAKER ASSIGNMENTS:\n". *)
Definition prompt_header (topic format_type : string) (duration_minutes : Z)
  (fi : format_info) : string :=
  "Create a natural " ++ format_type ++ " podcast script about "
  ++ String DQ (topic ++ String DQ " using Google's multi-speaker format.")
  ++ NL ++ NL ++ "FORMAT: " ++ description fi
  ++ NL ++ "SPEAKERS: " ++ join ", " (speakers fi) ++ " (Google TTS speaker IDs)"
  ++ NL ++ "DURATION: Approximately " ++ str_Z duration_minutes ++ " minutes"
  ++ NL ++ NL ++ "SPEAKER ASSIGNMENTS:" ++ NL.

(** The loop over [format_info['speakers']]; [GOOGLE_SPEAKERS[speaker_id]]
    raises [KeyError] on an unknown id ([None]). *)
Fixpoint speaker_assignments (fi : format_info) (spk : list string) : option string :=
  match spk with
  | [] => Some EmptyString
  | speaker_id :: rest =>
      match assoc speaker_id GOOGLE_SPEAKER_INFO with
      | None => None
      | Some speaker_info =>
          let role := match assoc speaker_id (roles fi) with
                      | Some r => r
                      | None => sp_name speaker_info
                      end in
          match speaker_assignments fi rest with
          | None => None
          | Some more =>
              Some ("- " ++ speaker_id ++ ": " ++ role ++ " ("
                    ++ sp_description speaker_info ++ ")" ++ NL ++ more)
          end
      end
  end.

(** The second f-string. *)
Definition prompt_requirements (duration_minutes : Z) (fi : format_info) : string :=
  NL ++ NL ++ "CONTENT REQUIREMENTS:"
  ++ NL ++ "1. Create " ++ str_Z (duration_minutes * 2) ++ " dialogue turns (approximately)"
  ++ NL ++ "2. Each turn should be 1-3 sentences"
  ++ NL ++ "3. Make dialogue natural and conversational"
  ++ NL ++ "4. Include personality in the speaking style"
  ++ NL ++ "5. Add natural reactions and follow-ups"
  ++ NL ++ NL ++ "FORMAT EACH TURN AS:"
  ++ NL ++ "Speaker ID|Dialogue text"
  ++ NL ++ NL ++ "Example:"
  ++ NL ++ "R|Welcome to our podcast about artificial intelligence!"
  ++ NL ++ "S|Thanks for having me. AI is transforming how we live and work."
  ++ NL ++ "R|Can you give us a specific example?"
  ++ NL ++ "S|Sure! Take healthcare - AI is now helping doctors diagnose diseases earlier than ever before."
  ++ NL ++ NL ++ "IMPORTANT:"
  ++ NL ++ "- Use only the speaker IDs: " ++ join ", " (speakers fi)
  ++ NL ++ "- Keep each turn concise but natural"
  ++ NL ++ "- Include appropriate emotions and reactions in the text"
  ++ NL ++ "- Make it sound like a real conversation, not a script"
  ++ NL ++ NL ++ "Topic focus areas:".

(** [for key, value in additional_context.items(): prompt += f"\n- {key}: {value}"];
    each value is given by its [str()]. *)
Fixpoint context_lines (additional_context : list (string * string)) : string :=
  match additional_context with
  | [] => EmptyString
  | (key, value) :: rest => NL ++ "- " ++ key ++ ": " ++ value ++ context_lines rest
  end.

(** [additional_context] as the prompt reads it: its items in insertion
    order, each value rendered by [str()]; an empty dict is falsy and
    skips the loop. *)
Definition generate_google_tts_prompt (topic format_type : string) (duration_minutes : Z)
  (additional_context : list (string * string)) : option string :=
  let format_info := get_format format_type in
  match speaker_assignments format_info (speakers format_info) with
  | None => None
  | Some assignments =>
      Some (prompt_header topic format_type duration_minutes format_info ++ assignments
            ++ prompt_requirements duration_minutes format_info
            ++ match additional_context with
               | [] => EmptyString
               | _ => context_lines additional_context
               end)
  end.

(** ** call_tool, create_google_audio *)

(** The outcome of the [create_google_audio] branch up to the synthesis
    request.  The environment enters as three facts: the variable
    GOOGLE_APPLICATION_CREDENTIALS is set and non-empty, the
    [google.cloud.texttospeech] import succeeds, and the client is
    created without raising. *)
Inductive audio_outcome :=
| AudioScriptRequired          (* "Error: script parameter is required" *)
| AudioNoCredentials           (* "Error: Google Cloud credentials not configured..." *)
| AudioNoLibrary               (* "Error: Google Cloud TTS library not installed..." *)
| AudioClientError             (* "Error creating audio: ..." *)
| AudioNoTurns                 (* "Error: No valid dialogue turns found..." *)
| AudioSynthesize (turns : list turn).  (* the turns of the MultiSpeakerMarkup *)

Definition create_google_audio (script : string) (credentials library client : bool)
  : audio_outcome :=
  if String.eqb script "" then AudioScriptRequired
  else if negb credentials then AudioNoCredentials
  else if negb library then AudioNoLibrary
  else if negb client then AudioClientError
  else match parse_google_script script with
       | [] => AudioNoTurns
       | turns => AudioSynthesize turns
       end.

(** [speaker_counts[speaker] = speaker_counts.get(speaker, 0) + 1]: an
    existing key keeps its place, a new key is appended. *)
Fixpoint count_into (counts : list (string * nat)) (s : string) : list (string * nat) :=
  match counts with
  | [] => [(s, 1)]
  | (k, v) :: rest => if String.eqb k s then (k, v + 1) :: rest else (k, v) :: count_into rest s
  end.

Definition speaker_counts (turns : list turn) : list (string * nat) :=
  fold_left (fun acc t => count_into acc (speaker t)) turns [].

(** [sorted(speaker_counts.items())]: insertion sort on the keys, which
    are distinct. *)
Fixpoint insert_item (x : string * nat) (l : list (string * nat)) : list (string * nat) :=
  match l with
  | [] => [x]
  | y :: r => if String.leb (fst x) (fst y) then x :: l else y :: insert_item x r
  end.

Definition sort_items (l : list (string * nat)) : list (string * nat) :=
  fold_right insert_item [] l.

(** The bullet U+2022, as its UTF-8 bytes. *)
Definition BULLET : string :=
  String (Ascii.ascii_of_nat 226) (String (Ascii.ascii_of_nat 128)
    (String (Ascii.ascii_of_nat 162) EmptyString)).

(** The "Speaker Guide" lines: [GOOGLE_SPEAKERS[k]['description']] for
    every key of the sorted counts; [None] is a [KeyError]. *)
Fixpoint speaker_guide (keys : list string) : option (list string) :=
  match keys with
  | [] => Some []
  | k :: ks =>
      match assoc k GOOGLE_SPEAKER_INFO, speaker_guide ks with
      | Some e, Some g => Some (("  " ++ BULLET ++ " " ++ k ++ ": " ++ sp_description e) :: g)
      | _, _ => None
      end
  end.

(** ** Auxiliary definitions for the statements *)

(** A generated text survives [strip] unchanged: it starts with a
    non-space character, ends with one, and has no line break. *)
Definition starts_ok (t : string) : Prop :=
  match t with
  | String c _ => is_space c = false
  | EmptyString => False
  end.

Definition tail_ok (t : string) : Prop :=
  rstrip t = t /\ t <> "" /\ has_char nl t = false.

Definition good_text (t : string) : Prop := starts_ok t /\ tail_ok t.

(** What a turn of the main loop is made of. *)
Definition body_turn (topic : string) (ctx : context) (spk : list string) (t : turn) : Prop :=
  (speaker t = at_ spk 0 \/ speaker t = at_ spk (1 mod length spk)
   \/ speaker t = at_ spk (2 mod length spk))
  /\ (In (text t) content_prompts \/ (exists k, response_text topic ctx k = Some (text t))
      \/ In (text t) reactions).

(** The test [not line or line.startswith('#') or line.startswith('//')]
    on the stripped line. *)
Definition skipped_line (line0 : string) : bool :=
  let line := strip line0 in
  String.eqb line "" || startswith "#" line || startswith "//" line.

(** The label the detection loop reads on one line, if any. *)
Definition line_label (line : string) : option string :=
  if has_char colon line then
    match detect_match line with
    | Some g1 => let sp := strip g1 in if String.eqb sp "" then None else Some sp
    | None => None
    end
  else None.

(** The labels of the script, line by line, repetitions included. *)
Definition raw_labels (script : string) : list string :=
  filter_some (map line_label (split_char nl script)).

(** Position of the first occurrence of [x] in [l]. *)
Fixpoint first_index (x : string) (l : list string) : nat :=
  match l with
  | [] => 0
  | y :: l' => if String.eqb x y then 0 else S (first_index x l')
  end.

Fixpoint dedup_into (acc l : list string) : list string :=
  match l with
  | [] => acc
  | x :: l' => dedup_into (if existsb (String.eqb x) acc then acc else (acc ++ [x])%list) l'
  end.

Definition alice_bob : string := "Alice: Hi there" ++ NL ++ "Bob: Hello back".

(** A line whose label (as the conversion pattern reads it) is the fifth
    or a later detected label. *)
Definition unmapped_line (D : list string) (line : string) : bool :=
  match convert_match (strip line) with
  | Some (g1, _) => existsb (String.eqb (strip g1)) (skipn 4 D)
  | None => false
  end.

Definition five_speakers : string :=
  "A: a" ++ NL ++ "B: b" ++ NL ++ "C: c" ++ NL ++ "D: d" ++ NL ++ "E: e" ++ NL ++ "A: again".

Definition alice_only : string := "Alice: Hi there".

Definition no_nl (s : string) : Prop := has_char nl s = false.

Definition good_turn (t : turn) : Prop :=
  is_google_speaker (speaker t) = true /\ good_text (text t).

(** The pipe and colon tiers of [parse_google_script] over the lines of
    a text. *)
Definition line_turns (script : string) : list turn :=
  filter_some (map parse_line (split_char nl script)).

Fixpoint all_space (s : string) : bool :=
  match s with
  | EmptyString => true
  | String c s' => is_space c && all_space s'
  end.

(** A turn as the parser produces it: canonical speaker, non-empty text
    with no surrounding whitespace. *)
Definition well_formed_turn (t : turn) : Prop :=
  is_google_speaker (speaker t) = true /\ text t <> "" /\ strip (text t) = text t.

(** The number of turns spoken by [k]. *)
Definition speaker_count (k : string) (ts : list turn) : nat :=
  length (filter (fun t => String.eqb (speaker t) k) ts).

(** No element equals the next one. *)
Fixpoint no_adjacent_repeat (l : list string) : bool :=
  match l with
  | x :: ((y :: _) as r) => negb (String.eqb x y) && no_adjacent_repeat r
  | _ => true
  end.

(** The invariant of the counting loop of [create_google_audio]: the counts
    of the turns [p] read so far. *)
Definition counts_inv (acc : list (string * nat)) (p : list turn) : Prop :=
  NoDup (map fst acc)
  /\ (forall k, assoc k acc = if speaker_count k p =? 0 then None else Some (speaker_count k p))
  /\ list_sum (map snd acc) = length p.

(** * Properties *)

(** ** String lemmas *)

Lemma str_app_assoc (a b c : string) : (a ++ b) ++ c = a ++ (b ++ c).
Proof. induction a as [|x a IH]; simpl; [reflexivity | now rewrite IH]. Qed.

Lemma str_app_nil_r (a : string) : a ++ "" = a.
Proof. induction a as [|x a IH]; simpl; [reflexivity | now rewrite IH]. Qed.

Lemma str_app_eq_nil (a b : string) : a ++ b = "" -> a = "" /\ b = "".
Proof. destruct a; simpl; [auto | discriminate]. Qed.

Lemma has_char_app (c : ascii) (a b : string) :
  has_char c (a ++ b) = has_char c a || has_char c b.
Proof.
  induction a as [|x a IH]; simpl; [reflexivity|].
  now rewrite IH, orb_assoc.
Qed.

Lemma rstrip_app (a b : string) :
  rstrip b <> "" -> rstrip (a ++ b) = a ++ rstrip b.
Proof.
  intros Hb. induction a as [|x a IH]; simpl; [reflexivity|].
  rewrite IH. destruct (a ++ rstrip b) as [|y r] eqn:E; [|reflexivity].
  apply str_app_eq_nil in E. tauto.
Qed.

Lemma starts_ok_app (a b : string) : starts_ok a -> starts_ok (a ++ b).
Proof. destruct a; simpl; tauto. Qed.

Lemma tail_ok_app (a b : string) :
  has_char nl a = false -> tail_ok b -> tail_ok (a ++ b).
Proof.
  intros Ha (Hr & Hne & Hn). repeat split.
  - rewrite rstrip_app; [now rewrite Hr | now rewrite Hr].
  - intros E. apply str_app_eq_nil in E. tauto.
  - now rewrite has_char_app, Ha, Hn.
Qed.

Lemma good_text_app (a b : string) :
  starts_ok a -> has_char nl a = false -> tail_ok b -> good_text (a ++ b).
Proof. intros. split; [now apply starts_ok_app | now apply tail_ok_app]. Qed.

Lemma strip_good (t : string) : good_text t -> strip t = t.
Proof.
  intros [Hs (Hr & _ & _)]. unfold strip.
  destruct t as [|c t']; [contradiction|]. simpl in Hs |- *.
  rewrite Hs. exact Hr.
Qed.

(** ** Lemmas on the generator *)

Lemma at_mod_in (l : list string) (k : nat) :
  l <> [] -> In (at_ l (k mod length l)) l.
Proof.
  intros H. unfold at_. apply nth_In. apply Nat.mod_upper_bound.
  destruct l; [congruence | simpl; lia].
Qed.

Lemma at_in (l : list string) (k : nat) : k < length l -> In (at_ l k) l.
Proof. intros. unfold at_. now apply nth_In. Qed.

Lemma response_text_some (topic : string) (ctx : context) (i : nat) :
  ctx <> Some [] -> exists rt, response_text topic ctx i = Some rt.
Proof.
  intros H. unfold response_text.
  destruct ctx as [[|p kp]|]; [congruence | eauto | eauto].
Qed.

Lemma body_some (topic : string) (ctx : context) (spk : list string) (n : nat) :
  ctx <> Some [] -> forall i, exists b, body topic ctx spk i n = Some b.
Proof.
  intros H. induction n as [|n IH]; intros i; simpl; [eauto|].
  unfold body_step. destruct (response_text_some topic ctx i H) as [rt E].
  rewrite E. destruct (IH (S i)) as [b Eb]. rewrite Eb. eauto.
Qed.

Lemma body_step_turns (topic : string) (ctx : context) (spk : list string) (i : nat) ts :
  body_step topic ctx spk i = Some ts -> Forall (body_turn topic ctx spk) ts.
Proof.
  unfold body_step.
  destruct (response_text topic ctx i) as [rt|] eqn:Ert; [|discriminate].
  intros E. injection E. clear E. intros <-.
  constructor; [|constructor].
  - split; [now left|]. left. exact (at_mod_in content_prompts i ltac:(discriminate)).
  - split; [now right; left|]. right; left. eauto.
  - match goal with |- Forall _ (if ?c then _ else _) => destruct c end;
      constructor; [|constructor].
    split; [now right; right|]. right; right.
    exact (at_mod_in reactions i ltac:(discriminate)).
Qed.

Lemma body_turns (topic : string) (ctx : context) (spk : list string) (n : nat) :
  forall i b, body topic ctx spk i n = Some b -> Forall (body_turn topic ctx spk) b.
Proof.
  induction n as [|n IH]; intros i b E; cbn [body] in E.
  - injection E as <-. constructor.
  - destruct (body_step topic ctx spk i) as [ts|] eqn:Es; [|discriminate].
    destruct (body topic ctx spk (S i) n) as [rest|] eqn:Er; [|discriminate].
    replace b with (ts ++ rest)%list by congruence.
    apply Forall_app. split; [now apply (body_step_turns topic ctx spk i) | now apply (IH (S i))].
Qed.

Lemma body_speakers (topic : string) (ctx : context) (spk : list string) (b : list turn) :
  spk <> [] -> Forall (body_turn topic ctx spk) b ->
  Forall (fun t => In (speaker t) spk) b.
Proof.
  intros Hne Hb. apply (Forall_impl _ (fun t H => H)) in Hb.
  eapply Forall_impl; [|exact Hb]. intros t [Hs _].
  assert (H0 : In (at_ spk 0) spk).
  { apply at_in. destruct spk; [congruence | simpl; lia]. }
  destruct Hs as [-> | [-> | ->]]; auto using at_mod_in.
Qed.

Lemma get_format_assoc (f : string) (fi : format_info) :
  assoc f PODCAST_FORMATS = Some fi -> get_format f = fi.
Proof. unfold get_format. now intros ->. Qed.

Lemma opening_length (topic f : string) (spk : list string) :
  1 < length spk -> 2 <= length (opening topic f spk).
Proof.
  intros H. unfold opening.
  destruct (String.eqb f "interview"); [simpl; lia|].
  destruct (String.eqb f "debate"); [simpl; lia|].
  apply Nat.ltb_lt in H. rewrite H. simpl. lia.
Qed.

Lemma closing_length (topic : string) (spk : list string) :
  1 < length spk -> length (closing topic spk) = 3.
Proof. intros H. unfold closing. apply Nat.ltb_lt in H. now rewrite H. Qed.

(** Splits [assoc f PODCAST_FORMATS = Some fi] into the six entries. *)
Ltac catalog_cases H :=
  cbn [assoc PODCAST_FORMATS] in H;
  repeat match type of H with
  | (if String.eqb ?f ?k then _ else _) = _ =>
      let E := fresh "E" in
      destruct (String.eqb f k) eqn:E;
      [apply String.eqb_eq in E; subst f; injection H as <- |]
  end;
  try discriminate.

Lemma generate_catalog_shape (topic format_type : string) (fi : format_info) (d : Z)
  (ctx : context) :
  assoc format_type PODCAST_FORMATS = Some fi -> ctx <> Some [] ->
  exists ts, generate_dialogue_turns topic format_type d ctx = Some ts
    /\ 4 <= length ts /\ Forall (fun t => In (speaker t) (speakers fi)) ts.
Proof.
  intros Hf Hctx.
  destruct (body_some topic ctx (speakers fi) (loop_count d) Hctx 0) as [b Eb].
  unfold generate_dialogue_turns. rewrite (get_format_assoc _ _ Hf), Eb.
  eexists; split; [reflexivity|].
  pose proof (body_turns _ _ _ _ _ _ Eb) as Hb.
  catalog_cases Hf;
    (split;
     [ rewrite !length_app;
       match goal with
       | |- context [opening topic ?f ?s] =>
           pose proof (opening_length topic f s ltac:(simpl; lia))
       end;
       rewrite closing_length by (simpl; lia); lia
     | apply Forall_app; split;
       [ cbn; repeat constructor; simpl; tauto
       | apply Forall_app; split;
         [ apply (body_speakers topic ctx); [discriminate | exact Hb]
         | cbn; repeat constructor; simpl; tauto ] ] ]).
Qed.

Lemma loop_count_pos (d : Z) : (3 <= d)%Z -> loop_count d <> 0.
Proof. unfold loop_count. simpl length. lia. Qed.

(** ** Claims on generate_dialogue_turns *)

(** C1 (code_bug).  For a catalog format, [durationMinutes >= 1] and a
    context whose [key_points] is absent or non-empty, the call returns
    at least 4 turns, all spoken by members of the format's speaker list;
    but for [key_points = []] and a duration of 3 or more the call raises
    (here: topic "AI", format "dialogue", 3 minutes) instead of returning. *)
Theorem generate_turns_shape_C1 :
  generate_dialogue_turns "AI" "dialogue" 3 (Some []) = None /\
  (forall topic format_type fi d ctx,
     assoc format_type PODCAST_FORMATS = Some fi -> (1 <= d)%Z -> ctx <> Some [] ->
     exists ts, generate_dialogue_turns topic format_type d ctx = Some ts
       /\ 4 <= length ts /\ Forall (fun t => In (speaker t) (speakers fi)) ts).
Proof.
  split; [vm_compute; reflexivity|].
  intros topic format_type fi d ctx Hf _ Hctx.
  now apply generate_catalog_shape.
Qed.

(** C3 (code_bug).  With [key_points] bound to the empty list and a
    duration of at least 3 minutes (so that the main loop runs), the
    call aborts on [i % len(key_points)], for every topic and format. *)
Theorem generate_empty_key_points_raises (topic format_type : string) (d : Z) :
  (3 <= d)%Z -> generate_dialogue_turns topic format_type d (Some []) = None.
Proof.
  intros Hd. unfold generate_dialogue_turns.
  pose proof (loop_count_pos d Hd) as Hn.
  destruct (loop_count d) as [|n]; [contradiction|].
  reflexivity.
Qed.

Lemma generate_empty_key_points_raises_witness :
  (3 <= 3)%Z /\ generate_dialogue_turns "AI" "dialogue" 3 (Some []) = None.
Proof. split; [lia | apply generate_empty_key_points_raises; lia]. Defined.

(** C8.  A format name that is not in the catalog gives exactly the turns
    of the default format "dialogue"; the call never fails because of it. *)
Theorem generate_unknown_format_is_dialogue (topic format_type : string) (d : Z)
  (ctx : context) :
  assoc format_type PODCAST_FORMATS = None ->
  generate_dialogue_turns topic format_type d ctx
  = generate_dialogue_turns topic "dialogue" d ctx.
Proof.
  intros Hf. unfold generate_dialogue_turns, get_format. rewrite Hf.
  cbn [assoc PODCAST_FORMATS String.eqb]. unfold opening.
  assert (Hi : String.eqb format_type "interview" = false).
  { apply String.eqb_neq. intros ->. discriminate Hf. }
  assert (Hd : String.eqb format_type "debate" = false).
  { apply String.eqb_neq. intros ->. discriminate Hf. }
  rewrite Hi, Hd. reflexivity.
Qed.

Lemma generate_unknown_format_is_dialogue_witness :
  assoc "podcast" PODCAST_FORMATS = None /\
  generate_dialogue_turns "AI" "podcast" 4 None
  = generate_dialogue_turns "AI" "dialogue" 4 None.
Proof.
  split; [reflexivity|].
  apply generate_unknown_format_is_dialogue. reflexivity.
Defined.

(** C9.  The generator is a function of its four arguments: two calls with
    the same topic, format name, duration and context give the same
    result (no random choice enters the embedding). *)
Theorem generate_deterministic (topic format_type : string) (d : Z) (ctx : context) :
  forall r1 r2,
  generate_dialogue_turns topic format_type d ctx = r1 ->
  generate_dialogue_turns topic format_type d ctx = r2 -> r1 = r2.
Proof. intros r1 r2 <- <-. reflexivity. Qed.

Lemma generate_deterministic_witness :
  generate_dialogue_turns "AI" "debate" 5 (Some ["Mars"]) =
  generate_dialogue_turns "AI" "debate" 5 (Some ["Mars"]).
Proof.
  exact (generate_deterministic "AI" "debate" 5 (Some ["Mars"]) _ _ eq_refl eq_refl).
Defined.

(** ** Lemmas on the parser *)

Lemma dot_plus_end_nonl (r : string) :
  has_char nl r = false -> dot_plus_end r = if String.eqb r "" then None else Some r.
Proof.
  induction r as [|c r IH]; simpl; [reflexivity|].
  intros H. apply orb_false_iff in H as [Hc Hr]. rewrite Hc.
  destruct r as [|c' r']; [reflexivity|].
  rewrite (IH Hr). reflexivity.
Qed.

Lemma strip_space_cons (c : ascii) (r : string) :
  is_space c = true -> strip (String c r) = strip r.
Proof. intros H. unfold strip. simpl. now rewrite H. Qed.

(** The group of [\s*(.+)$] on a line without [\n] strips to the stripped
    text after the [:]; no match means that text is blank. *)
Lemma ws_then_dot_plus_end_nonl (r : string) :
  has_char nl r = false ->
  match ws_then_dot_plus_end r with
  | Some g => strip g = strip r
  | None => strip r = ""
  end.
Proof.
  induction r as [|c r IH]; intros H; [reflexivity|].
  change (ws_then_dot_plus_end (String c r)) with
    (if is_space c then
       match ws_then_dot_plus_end r with
       | Some g => Some g
       | None => dot_plus_end (String c r)
       end
     else dot_plus_end (String c r)).
  simpl in H. apply orb_false_iff in H as [Hc Hr].
  assert (Hd : dot_plus_end (String c r) = Some (String c r)).
  { rewrite dot_plus_end_nonl; [reflexivity|]. simpl. now rewrite Hc, Hr. }
  destruct (is_space c) eqn:Hs.
  - rewrite strip_space_cons by exact Hs.
    specialize (IH Hr). destruct (ws_then_dot_plus_end r) as [g|].
    + exact IH.
    + rewrite Hd. rewrite strip_space_cons by exact Hs. reflexivity.
  - rewrite Hd. reflexivity.
Qed.

Lemma rstrip_cons (c : ascii) (s : string) :
  rstrip (String c s) =
  match rstrip s with
  | EmptyString => if is_space c then EmptyString else String c EmptyString
  | String x r => String c (String x r)
  end.
Proof. reflexivity. Qed.

Lemma strip_idem (s : string) : strip (strip s) = strip s.
Proof.
  unfold strip.
  assert (Hl : forall t, lstrip (lstrip t) = lstrip t).
  { induction t as [|c t IH]; simpl; [reflexivity|].
    destruct (is_space c) eqn:E; [exact IH | simpl; now rewrite E]. }
  assert (Hr : forall t, rstrip (rstrip t) = rstrip t).
  { induction t as [|c t IH]; [reflexivity|].
    rewrite (rstrip_cons c t). destruct (rstrip t) as [|c' t'] eqn:E.
    - destruct (is_space c) eqn:Ec; simpl; [reflexivity|]. now rewrite Ec.
    - rewrite rstrip_cons, IH. reflexivity. }
  assert (Hrl : forall t, lstrip t = t -> lstrip (rstrip t) = rstrip t).
  { intros [|c t] H; [reflexivity|].
    simpl in H. destruct (is_space c) eqn:Ec.
    - exfalso. assert (Hlen : forall u, String.length (lstrip u) <= String.length u).
      { induction u as [|x u IHu]; simpl; [lia|]. destruct (is_space x); simpl; lia. }
      pose proof (Hlen t) as Hl'. rewrite H in Hl'. simpl in Hl'. lia.
    - rewrite rstrip_cons. destruct (rstrip t); [rewrite Ec|]; simpl; now rewrite Ec. }
  rewrite Hrl by apply Hl. apply Hr.
Qed.

Lemma parse_line_skipped (line : string) : skipped_line line = true -> parse_line line = None.
Proof. unfold skipped_line, parse_line. now intros ->. Qed.

Lemma tiers_without_skipped (lines : list string) :
  filter_some (map parse_line lines)
  = filter_some (map parse_line (filter (fun l => negb (skipped_line l)) lines)).
Proof.
  induction lines as [|l ls IH]; [reflexivity|].
  simpl. destruct (skipped_line l) eqn:E; simpl.
  - now rewrite parse_line_skipped.
  - destruct (parse_line l); now rewrite IH.
Qed.

(** ** Claims on parse_google_script *)

(** C4 (counterexample).  The script made of one comment line "# note"
    yields one turn whose text is that comment line: the paragraph
    fallback reads the raw script. *)
Lemma parse_comment_line_counterexample :
  parse_google_script "# note" = [ {| speaker := "R"; text := "# note" |} ].
Proof. vm_compute. reflexivity. Qed.

(** C4 (amended).  A blank or comment line gives no turn in the pipe and
    colon tiers, and removing all such lines does not change what those
    tiers produce; whenever the tiers produce a turn, that is the result
    of the parse.  The paragraph fallback, taken when the tiers produce
    nothing, splits the raw script, so comment lines are then part of the
    paragraph text ("# note" gives the turn R "# note"). *)
Theorem parse_comment_lines_tiers :
  (forall line, skipped_line line = true -> parse_line line = None) /\
  (forall script,
     let tiers := filter_some (map parse_line (split_char nl (strip script))) in
     tiers = filter_some (map parse_line
                (filter (fun l => negb (skipped_line l)) (split_char nl (strip script))))
     /\ (tiers <> [] -> parse_google_script script = tiers)) /\
  parse_google_script "# note" = [ {| speaker := "R"; text := "# note" |} ].
Proof.
  split; [exact parse_line_skipped|]. split; [|vm_compute; reflexivity].
  intros script tiers. split; [apply tiers_without_skipped|].
  unfold parse_google_script. fold tiers. destruct tiers; [congruence | reflexivity].
Qed.

(** C7 (counterexample).  "R:Hi" has no whitespace after the [:] and still
    gives a turn. *)
Lemma parse_colon_no_space_counterexample :
  parse_line "R:Hi" = Some {| speaker := "R"; text := "Hi" |} /\
  parse_google_script "R:Hi" = [ {| speaker := "R"; text := "Hi" |} ].
Proof. split; vm_compute; reflexivity. Qed.

Lemma match_colon_cases (s : string) :
  match_colon s = None \/
  exists c r, s = String c (String ":" r) /\ is_google_speaker (String c "") = true
              /\ match_colon s = option_map (fun g => (String c "", g)) (ws_then_dot_plus_end r).
Proof.
  destruct s as [|c [|col r]]; [now left | now left|].
  unfold match_colon.
  destruct (is_google_speaker (String c "")) eqn:Hc; [|now left].
  destruct (Ascii.eqb col ":") eqn:Hcol; [|now left].
  apply Ascii.eqb_eq in Hcol. subst col. right. exists c, r. split; [reflexivity|]. split; [exact Hc|].
  simpl. destruct (ws_then_dot_plus_end r); reflexivity.
Qed.

Lemma has_char_lstrip (c : ascii) (s : string) :
  has_char c s = false -> has_char c (lstrip s) = false.
Proof.
  induction s as [|x s IH]; simpl; [auto|].
  intros H. apply orb_false_iff in H as [Hx Hs].
  destruct (is_space x); [now apply IH | simpl; now rewrite Hx, Hs].
Qed.

Lemma has_char_rstrip (c : ascii) (s : string) :
  has_char c s = false -> has_char c (rstrip s) = false.
Proof.
  induction s as [|x s IH]; [auto|].
  intros H. simpl in H. apply orb_false_iff in H as [Hx Hs].
  rewrite rstrip_cons. specialize (IH Hs).
  destruct (rstrip s) as [|y r]; [destruct (is_space x)|]; simpl in *; auto;
    rewrite Hx; simpl; auto.
Qed.

Lemma has_char_strip (c : ascii) (s : string) :
  has_char c s = false -> has_char c (strip s) = false.
Proof. intros H. unfold strip. now apply has_char_rstrip, has_char_lstrip. Qed.

Lemma google_char (c : ascii) :
  is_google_speaker (String c "") = true ->
  c = "R"%char \/ c = "S"%char \/ c = "T"%char \/ c = "U"%char.
Proof.
  unfold is_google_speaker, GOOGLE_SPEAKERS. cbn [existsb]. intros H.
  repeat (apply orb_true_iff in H as [H|H];
          [apply String.eqb_eq in H; injection H; auto|]).
  discriminate.
Qed.

(** The colon tier on a line [c:r] with a canonical letter [c]. *)
Lemma parse_line_colon (line : string) (c : ascii) (r : string) :
  strip line = String c (String ":" r) -> is_google_speaker (String c "") = true ->
  has_char nl r = false -> has_char pipe r = false ->
  parse_line line = if String.eqb (strip r) "" then None
                    else Some {| speaker := String c ""; text := strip r |}.
Proof.
  intros Es Hg Hr Hp. unfold parse_line. cbv zeta. rewrite Es.
  pose proof (ws_then_dot_plus_end_nonl r Hr) as Hw.
  destruct (google_char c Hg) as [-> | [-> | [-> | ->]]];
    cbn -[strip ws_then_dot_plus_end]; rewrite Hp; cbn -[strip ws_then_dot_plus_end];
    destruct (ws_then_dot_plus_end r) as [g|]; rewrite ?Hw;
    solve [ destruct (String.eqb (strip r) ""); reflexivity | now rewrite Hw ].
Qed.

(** C7 (amended).  A line (from the split of the script, so without a
    line break) whose stripped form has no [|] but a [:] gives a turn iff
    it is one of the letters R, S, T, U, then [:], then a rest that is
    not blank; the whitespace after the [:] may be absent.  The turn is
    that letter with the stripped rest.  Any other colon line (lowercase
    letter, longer label, other start) gives no turn in this tier. *)
Theorem parse_colon_tier (line : string) :
  has_char nl line = false -> has_char pipe (strip line) = false ->
  has_char colon (strip line) = true ->
  forall t, parse_line line = Some t <->
  exists c r, strip line = String c (String ":" r) /\ is_google_speaker (String c "") = true
    /\ strip r <> "" /\ t = {| speaker := String c ""; text := strip r |}.
Proof.
  intros Hnl Hp Hc t.
  pose proof (has_char_strip _ _ Hnl) as Hsnl.
  destruct (match_colon_cases (strip line)) as [Hm | (c & r & Es & Hg & _)].
  - split.
    + intros H. exfalso. unfold parse_line in H. cbv zeta in H.
      rewrite Hp, Hc, Hm in H.
      destruct (String.eqb (strip line) "" || startswith "#" (strip line)
                || startswith "//" (strip line)); discriminate.
    + intros (c & r & Es & Hg & Hne & _). exfalso.
      rewrite Es in Hm, Hsnl. simpl in Hsnl. apply orb_false_iff in Hsnl as [_ Hrnl].
      pose proof (ws_then_dot_plus_end_nonl r Hrnl) as Hw.
      unfold match_colon in Hm. rewrite Hg in Hm. simpl in Hm.
      destruct (ws_then_dot_plus_end r); [discriminate | contradiction].
  - assert (Hr : has_char nl r = false /\ has_char pipe r = false).
    { rewrite Es in Hsnl, Hp. simpl in Hsnl, Hp.
      apply orb_false_iff in Hsnl as [_ H1]. apply orb_false_iff in Hp as [_ H2].
      now split. }
    destruct Hr as [Hrnl Hrp].
    rewrite (parse_line_colon line c r Es Hg Hrnl Hrp). split.
    + intros H. destruct (String.eqb (strip r) "") eqn:E; [discriminate|].
      injection H as <-. exists c, r. split; [exact Es|]. split; [exact Hg|].
      split; [now apply String.eqb_neq | reflexivity].
    + intros (c' & r' & Es' & Hg' & Hne & ->). rewrite Es in Es'.
      injection Es' as <- <-. apply String.eqb_neq in Hne. now rewrite Hne.
Qed.

Lemma parse_colon_tier_witness :
  has_char nl "S:  Bye" = false /\ has_char pipe (strip "S:  Bye") = false /\
  has_char colon (strip "S:  Bye") = true /\
  (parse_line "S:  Bye" = Some {| speaker := "S"; text := "Bye" |} <->
   exists c r, strip "S:  Bye" = String c (String ":" r)
     /\ is_google_speaker (String c "") = true /\ strip r <> ""
     /\ {| speaker := "S"; text := "Bye" |} = {| speaker := String c ""; text := strip r |}).
Proof.
  split; [reflexivity|]. split; [reflexivity|]. split; [reflexivity|].
  apply parse_colon_tier; reflexivity.
Defined.

(** ** Lemmas on the converter *)


Lemma detect_loop_dedup (lines acc : list string) :
  detect_loop acc lines = dedup_into acc (filter_some (map line_label lines)).
Proof.
  revert acc. induction lines as [|line ls IH]; intros acc; [reflexivity|].
  simpl. unfold line_label.
  destruct (has_char colon line); [|apply IH].
  destruct (detect_match line) as [g1|]; [|apply IH].
  destruct (String.eqb (strip g1) "") eqn:E; simpl; [apply IH|].
  destruct (existsb (String.eqb (strip g1)) acc); simpl; apply IH.
Qed.

Lemma existsb_eqb_In (x : string) (l : list string) :
  existsb (String.eqb x) l = true <-> In x l.
Proof.
  rewrite existsb_exists. split.
  - intros (y & Hy & E). apply String.eqb_eq in E. now subst.
  - intros H. exists x. split; [exact H | apply String.eqb_refl].
Qed.

Lemma first_index_app_in (x : string) (p q : list string) :
  In x p -> first_index x (p ++ q) = first_index x p.
Proof.
  induction p as [|y p IH]; simpl; [tauto|]. intros [-> | H].
  - now rewrite String.eqb_refl.
  - destruct (String.eqb x y); [reflexivity | now rewrite IH].
Qed.

Lemma first_index_lt (x : string) (p : list string) : In x p -> first_index x p < length p.
Proof.
  induction p as [|y p IH]; simpl; [tauto|]. intros [-> | H].
  - rewrite String.eqb_refl. lia.
  - destruct (String.eqb x y); [lia | specialize (IH H); lia].
Qed.

Lemma first_index_snoc_new (x : string) (p : list string) :
  ~ In x p -> first_index x (p ++ [x]) = length p.
Proof.
  induction p as [|y p IH]; simpl.
  - now rewrite String.eqb_refl.
  - intros H. destruct (String.eqb x y) eqn:E.
    + apply String.eqb_eq in E. subst. tauto.
    + rewrite IH; tauto.
Qed.

Lemma ss_transfer (R R' : string -> string -> Prop) (l : list string) :
  StronglySorted R l -> (forall a b, In a l -> In b l -> R a b -> R' a b) ->
  StronglySorted R' l.
Proof.
  induction 1 as [|a l Hs IH Hf]; intros Himp; constructor.
  - apply IH. intros x y Hx Hy. apply Himp; now right.
  - rewrite Forall_forall in Hf |- *. intros y Hy.
    apply Himp; [now left | now right | now apply Hf].
Qed.

Lemma ss_snoc (R : string -> string -> Prop) (l : list string) (x : string) :
  StronglySorted R l -> (forall y, In y l -> R y x) -> StronglySorted R (l ++ [x]).
Proof.
  induction 1 as [|a l Hs IH Hf]; intros Hx; simpl.
  - repeat constructor.
  - constructor.
    + apply IH. intros y Hy. apply Hx. now right.
    + apply Forall_app. split; [exact Hf|]. constructor; [|constructor].
      apply Hx. now left.
Qed.

Lemma nodup_snoc (l : list string) (x : string) :
  NoDup l -> ~ In x l -> NoDup (l ++ [x]).
Proof.
  induction 1 as [|a l Ha Hl IH]; intros Hx; simpl.
  - repeat constructor. simpl. tauto.
  - constructor.
    + rewrite in_app_iff. simpl. intros [H | [H | H]]; [tauto | subst; simpl in Hx; tauto | tauto].
    + apply IH. simpl in Hx. tauto.
Qed.

(** [dedup_into], run from the labels of a prefix [p], keeps every label
    once, in the order of first appearance. *)
Lemma dedup_into_spec (l : list string) :
  forall p acc,
  (forall x, In x acc <-> In x p) -> NoDup acc ->
  StronglySorted (fun x y => first_index x p < first_index y p) acc ->
  (forall x, In x (dedup_into acc l) <-> In x (p ++ l)) /\ NoDup (dedup_into acc l) /\
  StronglySorted (fun x y => first_index x (p ++ l) < first_index y (p ++ l))
    (dedup_into acc l).
Proof.
  induction l as [|x l IH]; intros p acc Hin Hnd Hss.
  - simpl. rewrite app_nil_r. auto.
  - simpl. replace (p ++ x :: l)%list with ((p ++ [x]) ++ l)%list
      by now rewrite <- app_assoc.
    apply IH.
    + destruct (existsb (String.eqb x) acc) eqn:E.
      * apply existsb_eqb_In, Hin in E. intros y. rewrite Hin, in_app_iff.
        simpl. intuition congruence.
      * intros y. rewrite !in_app_iff, Hin. tauto.
    + destruct (existsb (String.eqb x) acc) eqn:E; [exact Hnd|].
      apply nodup_snoc; [exact Hnd|]. intros H. apply existsb_eqb_In in H. congruence.
    + destruct (existsb (String.eqb x) acc) eqn:E.
      * apply (ss_transfer _ _ _ Hss). intros a b Ha Hb.
        apply Hin in Ha, Hb. now rewrite !first_index_app_in.
      * assert (Hx : ~ In x p).
        { rewrite <- Hin. intros H. apply existsb_eqb_In in H. congruence. }
        apply ss_snoc.
        -- apply (ss_transfer _ _ _ Hss). intros a b Ha Hb.
           apply Hin in Ha, Hb. now rewrite !first_index_app_in.
        -- intros y Hy. apply Hin in Hy.
           rewrite first_index_app_in, first_index_snoc_new by assumption.
           now apply first_index_lt.
Qed.

Lemma detect_speakers_spec (script : string) :
  let D := detect_speakers script in
  let raw := raw_labels script in
  NoDup D /\ (forall x, In x D <-> In x raw)
  /\ StronglySorted (fun x y => first_index x raw < first_index y raw) D.
Proof.
  cbv zeta. unfold detect_speakers, raw_labels. rewrite detect_loop_dedup.
  destruct (dedup_into_spec (filter_some (map line_label (split_char nl script))) []
              [] ltac:(tauto) (NoDup_nil _) (SSorted_nil _)) as (H1 & H2 & H3).
  simpl in H1, H3. auto.
Qed.

Lemma assign_ids_combine (l : list string) :
  forall i, i + length l <= 4 -> assign_ids i l = combine l (skipn i google_ids).
Proof.
  induction l as [|x l IH]; intros i Hi; [reflexivity|].
  simpl in Hi. simpl assign_ids. rewrite (IH (S i)) by lia.
  destruct i as [|[|[|[|i]]]]; [reflexivity | reflexivity | reflexivity | reflexivity | lia].
Qed.

Lemma auto_mapping_combine (script : string) :
  auto_mapping script = combine (firstn 4 (detect_speakers script)) google_ids.
Proof.
  unfold auto_mapping. apply assign_ids_combine.
  rewrite length_firstn. lia.
Qed.

Lemma assoc_combine_notin (k : string) (l v : list string) :
  ~ In k l -> assoc k (combine l v) = None.
Proof.
  revert v. induction l as [|x l IH]; intros v Hk; [reflexivity|].
  destruct v as [|y v]; [reflexivity|]. simpl.
  destruct (String.eqb k x) eqn:E.
  - apply String.eqb_eq in E. subst. simpl in Hk. tauto.
  - apply IH. simpl in Hk. tauto.
Qed.

Lemma nodup_app_disjoint (l1 l2 : list string) (x : string) :
  NoDup (l1 ++ l2) -> In x l2 -> ~ In x l1.
Proof.
  induction l1 as [|a l1 IH]; simpl; [tauto|].
  intros Hnd Hx [-> | H].
  - inversion Hnd as [|? ? Hna _]. apply Hna. apply in_app_iff. now right.
  - inversion Hnd as [|? ? _ Hnd']. exact (IH Hnd' Hx H).
Qed.

Lemma assoc_In {A} (k : string) (v : A) (m : list (string * A)) :
  assoc k m = Some v -> In (k, v) m.
Proof.
  induction m as [|[k' v'] m IH]; simpl; [discriminate|].
  destruct (String.eqb k k') eqn:E.
  - apply String.eqb_eq in E. intros H. injection H as <-. subst. now left.
  - intros H. right. now apply IH.
Qed.

Lemma filter_some_forall {A B} (P : B -> Prop) (f : A -> option B) (l : list A) :
  (forall x y, f x = Some y -> P y) -> Forall P (filter_some (map f l)).
Proof.
  intros H. induction l as [|x l IH]; simpl; [constructor|].
  destruct (f x) as [y|] eqn:E; [constructor; [exact (H x y E) | exact IH] | exact IH].
Qed.

Lemma convert_line_shape (m : list (string * string)) (line out : string) :
  convert_line m line = Some out ->
  exists k v t, assoc k m = Some v /\ out = v ++ "|" ++ t.
Proof.
  unfold convert_line. cbv zeta.
  destruct (String.eqb (strip line) ""); [discriminate|].
  destruct (has_char colon (strip line)); [|discriminate].
  destruct (convert_match (strip line)) as [[g1 g2]|]; [|discriminate].
  destruct (assoc (strip g1) m) as [v|] eqn:E; [|discriminate].
  destruct (negb (String.eqb v "") && negb (String.eqb (strip g2) "")); [|discriminate].
  intros H. injection H as <-. exists (strip g1), v, (strip g2). now split.
Qed.

(** Every converted script the tool returns uses canonical speakers only. *)
Lemma convert_ok_canonical (script : string) (m m' : list (string * string)) (out : string) :
  convert_to_google_format script m = ConvertOk m' out ->
  exists cl, out = join NL cl
    /\ Forall (fun l => exists v t, is_google_speaker v = true /\ l = v ++ "|" ++ t) cl.
Proof.
  unfold convert_to_google_format.
  destruct (String.eqb script ""); [discriminate|].
  set (m0 := match m with [] => auto_mapping script | _ => m end).
  destruct (converted_lines script m0) as [|l0 cl0] eqn:Ecl; [discriminate|].
  destruct (forallb (fun kv => is_google_speaker (snd kv)) m0) eqn:Eall; [|discriminate].
  intros H. injection H as _ <-. exists (l0 :: cl0). split; [reflexivity|].
  rewrite <- Ecl. unfold converted_lines. apply filter_some_forall.
  intros line out Hl. destruct (convert_line_shape _ _ _ Hl) as (k & v & t & Ha & ->).
  exists v, t. split; [|reflexivity].
  apply assoc_In in Ha. rewrite forallb_forall in Eall. exact (Eall (k, v) Ha).
Qed.

(** ** Claims on convert_to_google_format *)

(** C5.  Automatic mapping gives the i-th detected label the i-th of R, S,
    T, U; the detected labels are distinct, are exactly the labels of the
    script, and come in the order of their first appearance.  On
    "Alice: Hi there\nBob: Hello back" the mapping is Alice -> R, Bob -> S
    and the converted script is "R|Hi there\nS|Hello back". *)
Theorem auto_mapping_first_appearance :
  (forall script,
     auto_mapping script = combine (firstn 4 (detect_speakers script)) ["R"; "S"; "T"; "U"]) /\
  (forall script,
     let D := detect_speakers script in
     let raw := raw_labels script in
     NoDup D /\ (forall x, In x D <-> In x raw)
     /\ StronglySorted (fun x y => first_index x raw < first_index y raw) D) /\
  auto_mapping alice_bob = [("Alice", "R"); ("Bob", "S")] /\
  convert_to_google_format alice_bob []
  = ConvertOk [("Alice", "R"); ("Bob", "S")] ("R|Hi there" ++ NL ++ "S|Hello back").
Proof.
  split; [exact auto_mapping_combine|].
  split; [exact detect_speakers_spec|].
  split; vm_compute; reflexivity.
Qed.

Lemma filter_some_drop {A B} (f : A -> option B) (p : A -> bool) (l : list A) :
  (forall x, p x = true -> f x = None) ->
  filter_some (map f l) = filter_some (map f (filter (fun x => negb (p x)) l)).
Proof.
  intros H. induction l as [|x l IH]; [reflexivity|].
  simpl. destruct (p x) eqn:E; simpl.
  - now rewrite (H x E).
  - destruct (f x); now rewrite IH.
Qed.

(** C6.  The automatic mapping has at most 4 entries; a line whose label
    is the fifth or a later distinct label converts to nothing, and the
    converted lines are exactly those of the script with such lines
    removed: they leave no line, placeholder or message behind.  On a
    script with labels A..E, the E line is dropped. *)
Theorem convert_drops_fifth_label :
  (forall script,
     let m := auto_mapping script in
     let D := detect_speakers script in
     length m <= 4 /\
     (forall line, unmapped_line D line = true -> convert_line m line = None) /\
     converted_lines script m
     = filter_some (map (convert_line m)
         (filter (fun l => negb (unmapped_line D l)) (split_char nl script)))) /\
  convert_to_google_format five_speakers []
  = ConvertOk [("A", "R"); ("B", "S"); ("C", "T"); ("D", "U")]
      ("R|a" ++ NL ++ "S|b" ++ NL ++ "T|c" ++ NL ++ "U|d" ++ NL ++ "R|again").
Proof.
  split; [|vm_compute; reflexivity].
  intros script. cbv zeta.
  set (m := auto_mapping script). set (D := detect_speakers script).
  assert (Hnone : forall line, unmapped_line D line = true -> convert_line m line = None).
  { intros line H. unfold unmapped_line in H. unfold convert_line. cbv zeta.
    destruct (String.eqb (strip line) ""); [reflexivity|].
    destruct (has_char colon (strip line)); [|reflexivity].
    destruct (convert_match (strip line)) as [[g1 g2]|]; [|discriminate].
    apply existsb_eqb_In in H.
    destruct (detect_speakers_spec script) as (Hnd & _ & _).
    fold D in Hnd. rewrite <- (firstn_skipn 4 D) in Hnd.
    pose proof (nodup_app_disjoint _ _ _ Hnd H) as Hn.
    unfold m. rewrite auto_mapping_combine, assoc_combine_notin by exact Hn.
    reflexivity. }
  split; [|split; [exact Hnone | apply filter_some_drop; exact Hnone]].
  unfold m. rewrite auto_mapping_combine, length_combine.
  simpl length. lia.
Qed.

(** C10 (counterexample).  With the supplied mapping Alice -> X the tool
    does not return a converted script: rendering the reply looks X up in
    the speaker registry and fails.  In general, every converted script
    the tool returns has only canonical speakers. *)
Lemma convert_mapping_X_counterexample :
  convert_to_google_format alice_only [("Alice", "X")] = ConvertKeyError /\
  (forall script m m' out,
     convert_to_google_format script m = ConvertOk m' out ->
     exists cl, out = join NL cl
       /\ Forall (fun l => exists v t, is_google_speaker v = true /\ l = v ++ "|" ++ t) cl).
Proof.
  split; [vm_compute; reflexivity|]. exact convert_ok_canonical.
Qed.

(** C10 (amended).  The conversion loop copies the supplied mapping value
    verbatim into the converted line, whatever that value is: a line whose
    label maps to a non-empty [v] and whose text is non-empty becomes
    [v ++ "|" ++ text], with no check that [v] is one of R, S, T, U
    (Alice -> X turns "Alice: Hi there" into "X|Hi there").  But when a
    supplied mapping has a value outside R, S, T, U and some line converts,
    the tool call fails with a KeyError while rendering its reply; so every
    converted script the tool does return uses canonical speakers only. *)
Theorem convert_mapping_unchecked :
  (forall (m : list (string * string)) (line g1 g2 v : string),
     has_char colon (strip line) = true ->
     convert_match (strip line) = Some (g1, g2) ->
     assoc (strip g1) m = Some v -> v <> "" -> strip g2 <> "" ->
     convert_line m line = Some (v ++ "|" ++ strip g2))
  /\ (forall (script : string) (m : list (string * string)),
        m <> [] -> converted_lines script m <> [] ->
        forallb (fun kv => is_google_speaker (snd kv)) m = false ->
        convert_to_google_format script m = ConvertKeyError)
  /\ (forall (script : string) (m m' : list (string * string)) (out : string),
        convert_to_google_format script m = ConvertOk m' out ->
        exists cl, out = join NL cl
          /\ Forall (fun l => exists v t, is_google_speaker v = true /\ l = v ++ "|" ++ t) cl).
Proof.
  split; [|split; [|exact convert_ok_canonical]].
  - intros m line g1 g2 v Hc Hm Ha Hv Ht. unfold convert_line. cbv zeta.
    assert (Hl : String.eqb (strip line) "" = false).
    { apply String.eqb_neq. intros E. rewrite E in Hc. discriminate. }
    rewrite Hl, Hc, Hm, Ha.
    apply String.eqb_neq in Hv, Ht. now rewrite Hv, Ht.
  - intros script m Hm Hcl Hall. unfold convert_to_google_format.
    destruct (String.eqb script "") eqn:Es.
    + apply String.eqb_eq in Es. subst script. exfalso. apply Hcl. reflexivity.
    + destruct m as [|kv m0]; [congruence|].
      destruct (converted_lines script (kv :: m0)); [congruence|].
      now rewrite Hall.
Qed.

Lemma convert_mapping_unchecked_witness :
  convert_line [("Alice", "X")] alice_only = Some ("X" ++ "|" ++ "Hi there")
  /\ convert_to_google_format alice_only [("Alice", "X")] = ConvertKeyError.
Proof.
  destruct convert_mapping_unchecked as (H1 & H2 & _). split.
  - apply (H1 [("Alice", "X")] alice_only "Alice" "Hi there" "X");
      [vm_compute; reflexivity | vm_compute; reflexivity | reflexivity | discriminate | discriminate].
  - apply H2; [discriminate | vm_compute; discriminate | reflexivity].
Defined.

(** ** Round trip of the generator through the serialisation and the parser *)

Lemma google_speaker_cases (s : string) :
  is_google_speaker s = true -> s = "R" \/ s = "S" \/ s = "T" \/ s = "U".
Proof.
  unfold is_google_speaker, GOOGLE_SPEAKERS. cbn [existsb]. intros H.
  repeat (apply orb_true_iff in H as [H|H]; [apply String.eqb_eq in H; auto|]).
  discriminate.
Qed.

Lemma turn_line_good (t : turn) : good_turn t -> good_text (turn_line t).
Proof.
  intros [Hs Ht]. unfold turn_line.
  destruct (google_speaker_cases _ Hs) as [E|[E|[E|E]]]; rewrite E;
    (apply good_text_app; [reflexivity | reflexivity |]);
    (apply tail_ok_app; [reflexivity | apply Ht]).
Qed.

Lemma parse_line_turn_line (t : turn) : good_turn t -> parse_line (turn_line t) = Some t.
Proof.
  intros Hg. pose proof (strip_good _ (turn_line_good t Hg)) as Hl.
  destruct Hg as [Hs Ht]. pose proof (strip_good _ Ht) as Htx.
  destruct Ht as [_ (_ & Hne & _)].
  destruct t as [sp txt]. simpl in Hs, Htx, Hne |- *.
  unfold parse_line. cbv zeta. rewrite Hl.
  apply String.eqb_neq in Hne.
  destruct (google_speaker_cases _ Hs) as [E|[E|[E|E]]]; subst sp;
    simpl; rewrite Htx, Hne; reflexivity.
Qed.

Lemma split_char_nochar (c : ascii) (a : string) :
  has_char c a = false -> split_char c a = [a].
Proof.
  induction a as [|x a IH]; [reflexivity|]. simpl. intros H.
  apply orb_false_iff in H as [Hx Ha]. rewrite Hx, (IH Ha). reflexivity.
Qed.

Lemma split_char_app (c : ascii) (a b : string) :
  has_char c a = false -> split_char c (a ++ String c b) = a :: split_char c b.
Proof.
  induction a as [|x a IH]; simpl; intros H.
  - now rewrite Ascii.eqb_refl.
  - apply orb_false_iff in H as [Hx Ha]. rewrite Hx, (IH Ha). reflexivity.
Qed.

Lemma split_join (ls : list string) :
  ls <> [] -> Forall no_nl ls -> split_char nl (join NL ls) = ls.
Proof.
  induction ls as [|x [|y l] IH]; intros Hne Hf; [congruence| |].
  - inversion Hf. simpl. now apply split_char_nochar.
  - inversion Hf as [|? ? Hx Hl]. change (join NL (x :: y :: l)) with (x ++ String nl (join NL (y :: l))).
    rewrite split_char_app by exact Hx. f_equal. apply IH; [discriminate | exact Hl].
Qed.

Lemma rstrip_join (ls : list string) :
  ls <> [] -> Forall tail_ok ls -> rstrip (join NL ls) = join NL ls.
Proof.
  induction ls as [|x [|y l] IH]; intros Hne Hf; [congruence| |].
  - inversion Hf as [|? ? (Hx & _) _]. exact Hx.
  - inversion Hf as [|? ? (Hx & Hxne & _) Hl].
    change (join NL (x :: y :: l)) with (x ++ String nl (join NL (y :: l))).
    assert (IH' : rstrip (join NL (y :: l)) = join NL (y :: l)).
    { apply IH; [discriminate | exact Hl]. }
    assert (Hy : join NL (y :: l) <> "").
    { destruct l; simpl; inversion Hl as [|? ? (_ & Hyne & _) _];
        [exact Hyne | intros E; apply str_app_eq_nil in E; tauto]. }
    rewrite rstrip_app; [|rewrite rstrip_cons, IH'; destruct (join NL (y :: l)); [congruence | discriminate]].
    rewrite rstrip_cons, IH'. destruct (join NL (y :: l)); [congruence | reflexivity].
Qed.

Lemma strip_serialize (ts : list turn) :
  ts <> [] -> Forall good_turn ts -> strip (serialize ts) = serialize ts.
Proof.
  intros Hne Hf. unfold strip, serialize.
  assert (Hl : Forall good_text (map turn_line ts)).
  { apply Forall_map. eapply Forall_impl; [|exact Hf]. exact turn_line_good. }
  destruct ts as [|t ts]; [congruence|].
  assert (Hls : lstrip (join NL (map turn_line (t :: ts))) = join NL (map turn_line (t :: ts))).
  { inversion Hl as [|? ? [Hs _] _].
    destruct ts; simpl; [|destruct (turn_line t) as [|c r]; [contradiction | simpl in Hs |- *; now rewrite Hs]].
    destruct (turn_line t) as [|c r]; [contradiction | simpl in Hs |- *; now rewrite Hs]. }
  rewrite Hls. apply rstrip_join; [discriminate|].
  eapply Forall_impl; [|exact Hl]. now intros a [_ Ha].
Qed.

Lemma filter_some_map_some {A} (l : list A) : filter_some (map Some l) = l.
Proof. induction l as [|x l IH]; simpl; [reflexivity | now rewrite IH]. Qed.

Lemma parse_serialize (ts : list turn) :
  ts <> [] -> Forall good_turn ts -> parse_google_script (serialize ts) = ts.
Proof.
  intros Hne Hf. unfold parse_google_script. cbv zeta. rewrite (strip_serialize ts Hne Hf).
  unfold serialize. rewrite split_join.
  - rewrite map_map.
    rewrite (map_ext_in _ Some ts) by (intros t Ht; apply parse_line_turn_line;
                                       rewrite Forall_forall in Hf; auto).
    rewrite filter_some_map_some. destruct ts; [congruence | reflexivity].
  - destruct ts; [congruence | discriminate].
  - apply Forall_map. eapply Forall_impl; [|exact Hf].
    intros t Ht. now destruct (turn_line_good t Ht) as [_ (_ & _ & H)].
Qed.

(** Proves [good_text] or [tail_ok] of a text built from constants and
    newline-free pieces. *)
Ltac tail_const := split; [exact eq_refl | split; [discriminate | exact eq_refl]].
Ltac tail_steps :=
  repeat match goal with
  | |- tail_ok (?a ++ ?b) => apply (tail_ok_app a b); [first [exact eq_refl | assumption] |]
  end.
Ltac solve_good_text :=
  first
  [ split; [exact eq_refl | tail_const]
  | match goal with
    | |- good_text (?a ++ ?b) => apply (good_text_app a b); [exact eq_refl | exact eq_refl |]
    end;
    tail_steps; tail_const ].

Lemma pools_good :
  Forall good_text content_prompts /\ Forall good_text responses
  /\ Forall good_text reactions.
Proof.
  repeat split; repeat (apply Forall_cons; [solve_good_text |]); apply Forall_nil.
Qed.

Lemma at_mod_good (l : list string) (k : nat) :
  l <> [] -> Forall good_text l -> good_text (at_ l (k mod length l)).
Proof.
  intros Hne Hf. rewrite Forall_forall in Hf. now apply Hf, at_mod_in.
Qed.

Lemma some_eq_sym {A} (a b : A) : Some a = Some b -> b = a.
Proof. congruence. Qed.

Lemma response_text_good (topic : string) (ctx : context) (k : nat) (t : string) :
  no_nl topic -> (forall kp, ctx = Some kp -> Forall no_nl kp) ->
  response_text topic ctx k = Some t -> good_text t.
Proof.
  intros Htop Hkp. unfold response_text.
  destruct pools_good as (_ & Hr & _).
  pose proof (at_mod_good responses k ltac:(discriminate) Hr) as [Hs (_ & _ & Hn)].
  destruct ctx as [[|p kp]|]; [discriminate| |].
  - intros E. apply some_eq_sym in E. subst t.
    assert (Hp : no_nl (at_ (p :: kp) (k mod length (p :: kp)))).
    { specialize (Hkp _ eq_refl). rewrite Forall_forall in Hkp.
      apply Hkp, at_mod_in. discriminate. }
    unfold no_nl in Htop, Hp.
    apply good_text_app; [exact Hs | exact Hn |].
    tail_steps. tail_const.
  - intros E. apply some_eq_sym in E. subst t. unfold no_nl in Htop.
    apply good_text_app; [exact Hs | exact Hn |].
    tail_steps. tail_const.
Qed.

Lemma get_format_speakers (f : string) :
  Forall (fun s => is_google_speaker s = true) (speakers (get_format f))
  /\ 1 < length (speakers (get_format f)).
Proof.
  unfold get_format. destruct (assoc f PODCAST_FORMATS) as [fi|] eqn:E.
  - catalog_cases E; (split; [repeat constructor | simpl; lia]).
  - split; [repeat constructor | simpl; lia].
Qed.

(** Every generated turn has a canonical speaker and a text that is
    stable under [strip], provided the topic and the key points contain
    no line break. *)
Lemma generate_good (topic f : string) (d : Z) (ctx : context) (ts : list turn) :
  no_nl topic -> (forall kp, ctx = Some kp -> Forall no_nl kp) ->
  generate_dialogue_turns topic f d ctx = Some ts ->
  ts <> [] /\ Forall good_turn ts.
Proof.
  intros Htop Hkp E. unfold generate_dialogue_turns in E.
  destruct (get_format_speakers f) as [Hsp Hlen].
  set (spk := speakers (get_format f)) in *.
  destruct (body topic ctx spk 0 (loop_count d)) as [b|] eqn:Eb; [|discriminate].
  apply some_eq_sym in E. subst ts.
  assert (Hin : forall k, k < length spk -> is_google_speaker (at_ spk k) = true).
  { intros k Hk. rewrite Forall_forall in Hsp. now apply Hsp, at_in. }
  assert (Hmod : forall k, is_google_speaker (at_ spk (k mod length spk)) = true).
  { intros k. apply Hin, Nat.mod_upper_bound. lia. }
  pose proof Htop as Htop'. unfold no_nl in Htop.
  split.
  - intros H. apply app_eq_nil in H as [_ H]. apply app_eq_nil in H as [_ H].
    unfold closing in H. discriminate.
  - apply Forall_app; split; [|apply Forall_app; split].
    + unfold opening.
      destruct (String.eqb f "interview"); [|destruct (String.eqb f "debate")];
        [| | apply Forall_cons; [split; cbn [speaker text]; [apply Hin; lia | solve_good_text] |];
             destruct (1 <? length spk) eqn:E1; [apply Nat.ltb_lt in E1|]];
        repeat (apply Forall_cons;
                [split; cbn [speaker text]; [first [exact eq_refl | apply Hin; lia] | solve_good_text] |]);
        apply Forall_nil.
    + pose proof (body_turns _ _ _ _ _ _ Eb) as Hb.
      eapply Forall_impl; [|exact Hb]. intros t [Hs Ht]. split.
      * destruct Hs as [-> | [-> | ->]]; [apply Hin; lia | apply Hmod | apply Hmod].
      * destruct pools_good as (Hp & _ & Hr). rewrite Forall_forall in Hp, Hr.
        destruct Ht as [Ht | [(k & Ht) | Ht]]; [now apply Hp | | now apply Hr].
        exact (response_text_good topic ctx k _ Htop' Hkp Ht).
    + unfold closing.
      apply Forall_cons; [split; cbn [speaker text]; [apply Hin; lia | solve_good_text] |].
      destruct (1 <? length spk) eqn:E1; [apply Nat.ltb_lt in E1|]; simpl app;
        repeat (apply Forall_cons;
                [split; cbn [speaker text]; [first [exact eq_refl | apply Hin; lia] | solve_good_text] |]);
        apply Forall_nil.
Qed.

(** C2 (counterexample).  A topic with a line break: its text is cut in
    two lines by the serialisation and the parse does not give the turns
    back. *)
Lemma roundtrip_newline_topic_counterexample :
  match generate_dialogue_turns ("a" ++ NL ++ "b") "dialogue" 1 None with
  | Some ts => parse_google_script (serialize ts) <> ts
  | None => False
  end.
Proof. vm_compute. discriminate. Qed.

(** C2 (amended).  For every topic, format name, duration and context
    whose topic and key points contain no line break, whenever the
    generator returns turns (it raises on an empty key_points list, see
    C3), serialising them as "speaker|text" lines joined by "\n" and
    parsing the result gives the same turns back, in order. *)
Theorem generate_parse_roundtrip (topic format_type : string) (d : Z) (ctx : context)
  (ts : list turn) :
  no_nl topic -> (forall kp, ctx = Some kp -> Forall no_nl kp) ->
  generate_dialogue_turns topic format_type d ctx = Some ts ->
  parse_google_script (serialize ts) = ts.
Proof.
  intros Htop Hkp E. destruct (generate_good _ _ _ _ _ Htop Hkp E) as [Hne Hg].
  now apply parse_serialize.
Qed.

Lemma generate_parse_roundtrip_witness :
  match generate_dialogue_turns "Space" "interview" 3 (Some ["Mars"; "rovers"]) with
  | Some ts => parse_google_script (serialize ts) = ts
  | None => False
  end.
Proof.
  destruct (generate_dialogue_turns "Space" "interview" 3 (Some ["Mars"; "rovers"]))
    as [ts|] eqn:E; [|discriminate E].
  apply (generate_parse_roundtrip "Space" "interview" 3 (Some ["Mars"; "rovers"]) ts);
    [reflexivity | | exact E].
  intros kp H. injection H as <-. repeat constructor.
Defined.

(** * Further properties of the generator, the parser, the prompt and the tools *)

Lemma is_space_nl : is_space nl = true.
Proof. reflexivity. Qed.

Lemma split_char_nonempty (c : ascii) (s : string) : split_char c s <> [].
Proof.
  induction s as [|x s IH]; simpl; [discriminate|].
  destruct (Ascii.eqb x c); [discriminate|].
  destruct (split_char c s); [congruence | discriminate].
Qed.

Lemma split_char_cons (c x : ascii) (s : string) :
  split_char c (String x s) =
  if Ascii.eqb x c then EmptyString :: split_char c s else cons_head x (split_char c s).
Proof. reflexivity. Qed.

Lemma strip_comm (s : string) : rstrip (lstrip s) = lstrip (rstrip s).
Proof.
  induction s as [|c s IH]; [reflexivity|].
  rewrite rstrip_cons. simpl lstrip at 1.
  destruct (is_space c) eqn:Ec.
  - rewrite IH. destruct (rstrip s) as [|x r]; [reflexivity|]. simpl. now rewrite Ec.
  - rewrite rstrip_cons. destruct (rstrip s) as [|x r]; simpl; rewrite Ec; reflexivity.
Qed.

Lemma strip_eq_rstrip (a b : string) : rstrip a = rstrip b -> strip a = strip b.
Proof. intros H. unfold strip. now rewrite !strip_comm, H. Qed.

Lemma parse_line_strip_eq (a b : string) : strip a = strip b -> parse_line a = parse_line b.
Proof. intros H. unfold parse_line. now rewrite H. Qed.

Lemma parse_line_blank (a : string) : strip a = "" -> parse_line a = None.
Proof. intros H. unfold parse_line. now rewrite H. Qed.

Lemma rstrip_nil_all_space (s : string) : rstrip s = "" <-> all_space s = true.
Proof.
  induction s as [|c s IH]; [simpl; tauto|].
  rewrite rstrip_cons. simpl all_space. rewrite andb_true_iff, <- IH.
  destruct (rstrip s) as [|x r]; destruct (is_space c); split; intros H;
    try discriminate; try tauto; destruct H; discriminate.
Qed.

Lemma strip_nil_all_space (s : string) : strip s = "" <-> all_space s = true.
Proof.
  unfold strip. rewrite rstrip_nil_all_space.
  induction s as [|c s IH]; [simpl; tauto|].
  simpl. destruct (is_space c) eqn:Ec; simpl; [exact IH|]. rewrite Ec. simpl. tauto.
Qed.

Lemma all_space_lines (s : string) :
  all_space s = true -> Forall (fun l => strip l = "") (split_char nl s).
Proof.
  induction s as [|c s IH]; intros H; [repeat constructor|].
  simpl in H. apply andb_true_iff in H as [Hc Hs]. specialize (IH Hs).
  simpl. destruct (Ascii.eqb c nl); [constructor; [reflexivity | exact IH]|].
  pose proof (split_char_nonempty nl s) as Hne.
  destruct (split_char nl s) as [|h t]; [congruence|].
  inversion IH as [|? ? Hh Ht]. simpl. constructor; [|exact Ht].
  rewrite strip_space_cons by exact Hc. exact Hh.
Qed.

Lemma filter_some_app {A} (l1 l2 : list (option A)) :
  filter_some (l1 ++ l2)%list = (filter_some l1 ++ filter_some l2)%list.
Proof. induction l1 as [|[x|] l IH]; simpl; [reflexivity | now rewrite IH | exact IH]. Qed.

Lemma filter_some_blank (L : list string) :
  Forall (fun l => strip l = "") L -> filter_some (map parse_line L) = [].
Proof.
  induction 1 as [|l L Hl _ IH]; [reflexivity|]. simpl. now rewrite parse_line_blank.
Qed.

Lemma line_turns_lstrip (s : string) : line_turns (lstrip s) = line_turns s.
Proof.
  induction s as [|c s IH]; [reflexivity|]. simpl lstrip.
  destruct (is_space c) eqn:Ec; [|reflexivity]. rewrite IH. unfold line_turns. cbn [split_char].
  destruct (Ascii.eqb c nl); [cbn [map filter_some]; rewrite parse_line_blank; reflexivity|].
  pose proof (split_char_nonempty nl s) as Hne.
  destruct (split_char nl s) as [|h t]; [congruence|]. cbn [cons_head map filter_some].
  rewrite (parse_line_strip_eq (String c h) h) by (apply strip_space_cons; exact Ec).
  reflexivity.
Qed.

Lemma rstrip_lines (s : string) :
  exists L1 x y L2, split_char nl (rstrip s) = (L1 ++ [x])%list
    /\ split_char nl s = (L1 ++ y :: L2)%list /\ rstrip x = rstrip y
    /\ Forall (fun l => strip l = "") L2.
Proof.
  induction s as [|c s IH].
  - exists [], "", "", []. repeat split; constructor.
  - rewrite rstrip_cons. destruct (rstrip s) as [|x0 r0] eqn:Er.
    + apply rstrip_nil_all_space in Er. pose proof (all_space_lines s Er) as Hl.
      pose proof (split_char_nonempty nl s) as Hne.
      simpl split_char at 2.
      destruct (is_space c) eqn:Ec.
      * destruct (Ascii.eqb c nl) eqn:En.
        -- exists [], "", "", (split_char nl s). repeat split; auto.
        -- destruct (split_char nl s) as [|h t] eqn:Es; [congruence|].
           inversion Hl as [|? ? Hh Ht]. exists [], "", (String c h), t.
           repeat split; auto. simpl cons_head. simpl app.
           rewrite rstrip_cons. assert (Hh' : rstrip h = "").
           { apply rstrip_nil_all_space, strip_nil_all_space, Hh. }
           rewrite Hh', Ec. reflexivity.
      * assert (En : Ascii.eqb c nl = false).
        { destruct (Ascii.eqb c nl) eqn:E; [|reflexivity].
          apply Ascii.eqb_eq in E. subst c. rewrite is_space_nl in Ec. discriminate. }
        rewrite En. destruct (split_char nl s) as [|h t] eqn:Es; [congruence|].
        inversion Hl as [|? ? Hh Ht]. exists [], (String c ""), (String c h), t.
        assert (Hh' : rstrip h = "").
        { apply rstrip_nil_all_space, strip_nil_all_space, Hh. }
        repeat split; auto.
        -- simpl. rewrite En. reflexivity.
        -- rewrite !rstrip_cons, Hh'. reflexivity.
    + destruct IH as (L1 & x & y & L2 & E1 & E2 & Exy & HL2).
      rewrite (split_char_cons nl c (String x0 r0)), (split_char_cons nl c s).
      destruct (Ascii.eqb c nl).
      * exists ("" :: L1), x, y, L2. rewrite E1, E2. repeat split; auto.
      * rewrite E1, E2. destruct L1 as [|l L1].
        -- exists [], (String c x), (String c y), L2. repeat split; auto.
           rewrite !rstrip_cons, Exy. reflexivity.
        -- exists (String c l :: L1), x, y, L2. repeat split; auto.
Qed.

Lemma line_turns_rstrip (s : string) : line_turns (rstrip s) = line_turns s.
Proof.
  destruct (rstrip_lines s) as (L1 & x & y & L2 & E1 & E2 & Exy & HL2).
  unfold line_turns. rewrite E1, E2, !map_app, !filter_some_app. simpl.
  rewrite (parse_line_strip_eq x y) by (now apply strip_eq_rstrip).
  rewrite (filter_some_blank L2 HL2). destruct (parse_line y); reflexivity.
Qed.

Lemma line_turns_strip (s : string) : line_turns (strip s) = line_turns s.
Proof. unfold strip. now rewrite line_turns_rstrip, line_turns_lstrip. Qed.

Lemma parse_google_script_line_turns (s : string) :
  parse_google_script s = match line_turns s with
                          | [] => if String.eqb (strip s) "" then []
                                  else assign_paragraphs 0 (paragraphs s)
                          | ts => ts
                          end.
Proof.
  unfold parse_google_script. cbv zeta.
  change (filter_some (map parse_line (split_char nl (strip s)))) with (line_turns (strip s)).
  rewrite line_turns_strip. destruct (line_turns s); reflexivity.
Qed.

Lemma split_nlnl_nonempty (s : string) : split_nlnl s <> [].
Proof.
  destruct s as [|a [|b s']]; try discriminate.
  change (split_nlnl (String a (String b s'))) with
    (if Ascii.eqb a nl && Ascii.eqb b nl then EmptyString :: split_nlnl s'
     else cons_head a (split_nlnl (String b s'))).
  destruct (Ascii.eqb a nl && Ascii.eqb b nl); [discriminate|].
  unfold cons_head. destruct (split_nlnl (String b s')); discriminate.
Qed.

Lemma all_space_split_nlnl (s : string) :
  Forall (fun p => all_space p = true) (split_nlnl s) -> all_space s = true.
Proof.
  remember (String.length s) as n eqn:En. revert s En.
  induction n as [n IH] using lt_wf_ind. intros s En H.
  destruct s as [|a [|b s']]; [reflexivity| |].
  - simpl in H. inversion H. assumption.
  - change (split_nlnl (String a (String b s'))) with
      (if Ascii.eqb a nl && Ascii.eqb b nl then EmptyString :: split_nlnl s'
       else cons_head a (split_nlnl (String b s'))) in H.
    destruct (Ascii.eqb a nl && Ascii.eqb b nl) eqn:Eab.
    + apply andb_true_iff in Eab as [Ea Eb]. apply Ascii.eqb_eq in Ea, Eb. subst a b.
      inversion H as [|? ? _ Hs]. simpl. rewrite (IH (String.length s')); auto.
      simpl in En. lia.
    + pose proof (split_nlnl_nonempty (String b s')) as Hne.
      destruct (split_nlnl (String b s')) as [|h t] eqn:Es; [congruence|].
      simpl in H. inversion H as [|? ? Hh Ht]. simpl in Hh.
      apply andb_true_iff in Hh as [Ha Hh].
      change (all_space (String a (String b s'))) with (is_space a && all_space (String b s')).
      rewrite Ha, andb_true_l.
      apply (IH (String.length (String b s'))); [simpl in En |- *; lia | reflexivity |].
      rewrite Es. now constructor.
Qed.

Lemma paragraphs_nonempty (s : string) : strip s <> "" -> paragraphs s <> [].
Proof.
  intros Hs Hp. apply Hs. apply strip_nil_all_space. apply all_space_split_nlnl.
  unfold paragraphs in Hp. apply Forall_forall. intros p Hin.
  apply strip_nil_all_space.
  destruct (String.eqb (strip p) "") eqn:E; [now apply String.eqb_eq|].
  assert (Hin' : In (strip p) (filter (fun p => negb (String.eqb p "")) (map strip (split_nlnl s)))).
  { apply filter_In. split; [now apply in_map | now rewrite E]. }
  rewrite Hp in Hin'. contradiction.
Qed.

Lemma parse_line_wf (l : string) (t : turn) : parse_line l = Some t -> well_formed_turn t.
Proof.
  unfold parse_line. cbv zeta.
  destruct (String.eqb (strip l) "" || startswith "#" (strip l) || startswith "//" (strip l));
    [discriminate|].
  destruct (has_char pipe (strip l)).
  - destruct (split_first pipe (strip l)) as [[p0 p1]|]; [|discriminate].
    destruct (is_google_speaker (upper (strip p0))) eqn:Eg; [|discriminate].
    destruct (String.eqb (strip p1) "") eqn:Et; [discriminate|].
    intros H. injection H as <-. split; [exact Eg|]. split.
    + now apply String.eqb_neq.
    + apply strip_idem.
  - destruct (has_char colon (strip l)); [|discriminate].
    destruct (match_colon_cases (strip l)) as [Hm | (c & r & _ & Hg & Hm)].
    + rewrite Hm. discriminate.
    + rewrite Hm. destruct (ws_then_dot_plus_end r) as [g|]; [|discriminate]. simpl.
      destruct (String.eqb (strip g) "") eqn:Et; [discriminate|].
      intros H. injection H as <-. split; [exact Hg|]. split.
      * now apply String.eqb_neq.
      * apply strip_idem.
Qed.

Lemma filter_some_In {A B} (f : A -> option B) (l : list A) (y : B) :
  In y (filter_some (map f l)) -> exists x, In x l /\ f x = Some y.
Proof.
  induction l as [|x l IH]; simpl; [tauto|].
  destruct (f x) as [z|] eqn:E; simpl.
  - intros [<- | H]; [now exists x; auto|]. destruct (IH H) as (x' & ? & ?). exists x'; auto.
  - intros H. destruct (IH H) as (x' & ? & ?). exists x'; auto.
Qed.

Lemma line_turns_wf (s : string) : Forall well_formed_turn (line_turns s).
Proof.
  apply Forall_forall. intros t Hin. unfold line_turns in Hin.
  destruct (filter_some_In _ _ _ Hin) as (l & _ & Hl). exact (parse_line_wf l t Hl).
Qed.

Lemma assign_paragraphs_wf (i : nat) (paras : list string) :
  Forall (fun p => p <> "" /\ strip p = p) paras -> Forall well_formed_turn (assign_paragraphs i paras).
Proof.
  revert i. induction paras as [|p ps IH]; intros i H; cbn [assign_paragraphs]; [constructor|].
  inversion H as [|? ? [Hne Hs] Hps]. constructor; [|now apply IH].
  split; [|split; [exact Hne | exact Hs]]. cbn [speaker].
  assert (Hi : i mod 2 < 2) by (apply Nat.mod_upper_bound; lia).
  destruct (i mod 2) as [|[|k]]; [reflexivity | reflexivity | lia].
Qed.

Lemma paragraphs_clean (s : string) : Forall (fun p => p <> "" /\ strip p = p) (paragraphs s).
Proof.
  apply Forall_forall. intros p Hin. unfold paragraphs in Hin.
  apply filter_In in Hin as [Hin Hne]. apply in_map_iff in Hin as (q & <- & _).
  split; [|apply strip_idem]. apply negb_true_iff, String.eqb_neq in Hne. exact Hne.
Qed.

Lemma parse_wf (s : string) : Forall well_formed_turn (parse_google_script s).
Proof.
  rewrite parse_google_script_line_turns. pose proof (line_turns_wf s) as Hl.
  destruct (line_turns s) as [|t ts]; [|exact Hl].
  destruct (String.eqb (strip s) ""); [constructor|].
  apply assign_paragraphs_wf, paragraphs_clean.
Qed.

Lemma parse_nil_iff (s : string) : parse_google_script s = [] <-> strip s = "".
Proof.
  rewrite parse_google_script_line_turns. split.
  - destruct (line_turns s); [|discriminate].
    destruct (String.eqb (strip s) "") eqn:E; [intros _; now apply String.eqb_eq|].
    intros H. exfalso. apply String.eqb_neq in E.
    apply (paragraphs_nonempty s E). destruct (paragraphs s); [reflexivity | discriminate].
  - intros H. rewrite <- line_turns_strip, H. reflexivity.
Qed.

Lemma split_char_app_sep (c : ascii) (a b : string) :
  split_char c (a ++ String c b) = (split_char c a ++ split_char c b)%list.
Proof.
  induction a as [|x a IH].
  - simpl. now rewrite Ascii.eqb_refl.
  - cbn [append]. rewrite !split_char_cons, IH.
    destruct (Ascii.eqb x c); [reflexivity|].
    pose proof (split_char_nonempty c a) as Hne.
    destruct (split_char c a); [congruence | reflexivity].
Qed.

Lemma line_turns_app (a b : string) :
  line_turns (a ++ NL ++ b) = (line_turns a ++ line_turns b)%list.
Proof.
  unfold line_turns. change (NL ++ b) with (String nl b).
  now rewrite split_char_app_sep, map_app, filter_some_app.
Qed.

Lemma parse_line_turns_nonempty (s : string) :
  line_turns s <> [] -> parse_google_script s = line_turns s.
Proof.
  intros H. rewrite parse_google_script_line_turns.
  destruct (line_turns s); [congruence | reflexivity].
Qed.

Lemma strip_length (s : string) : String.length (strip s) <= String.length s.
Proof.
  unfold strip.
  assert (Hl : forall u, String.length (lstrip u) <= String.length u).
  { induction u as [|x u IHu]; simpl; [lia|]. destruct (is_space x); simpl; lia. }
  assert (Hr : forall u, String.length (rstrip u) <= String.length u).
  { induction u as [|x u IHu]; [simpl; lia|]. rewrite rstrip_cons.
    destruct (rstrip u) eqn:E; [destruct (is_space x)|]; simpl in *; lia. }
  etransitivity; [apply Hr | apply Hl].
Qed.

Lemma stripped_good_text (t : string) :
  strip t = t -> t <> "" -> has_char nl t = false -> good_text t.
Proof.
  intros Hs Hne Hn. destruct t as [|c r]; [congruence|].
  destruct (is_space c) eqn:Ec.
  - exfalso. rewrite strip_space_cons in Hs by exact Ec.
    pose proof (strip_length r) as Hl. rewrite Hs in Hl. simpl in Hl. lia.
  - split; [exact Ec|]. split; [|split; [exact Hne | exact Hn]].
    unfold strip in Hs. simpl in Hs. rewrite Ec in Hs. exact Hs.
Qed.

Lemma serialize_nil : serialize [] = "".
Proof. reflexivity. Qed.

(** X1. Every turn [parse_google_script] returns has a speaker among R, S, T, U and a non-empty text that [strip] leaves unchanged, in all three tiers. *)
Theorem parse_google_script_well_formed (script : string) :
  Forall well_formed_turn (parse_google_script script).
Proof. apply parse_wf. Qed.

(** X2. [parse_google_script] returns no turn exactly when the script is blank (only whitespace). *)
Theorem parse_google_script_empty_iff_blank (script : string) :
  parse_google_script script = [] <-> strip script = "".
Proof. apply parse_nil_iff. Qed.

(** X3. When each of two scripts has a line that parses as a turn, parsing their concatenation with a newline in between gives the turns of the first followed by the turns of the second. *)
Theorem parse_google_script_concat (a b : string) :
  line_turns a <> [] -> line_turns b <> [] ->
  parse_google_script (a ++ NL ++ b) = (parse_google_script a ++ parse_google_script b)%list.
Proof.
  intros Ha Hb.
  rewrite (parse_line_turns_nonempty a Ha), (parse_line_turns_nonempty b Hb).
  rewrite <- line_turns_app. apply parse_line_turns_nonempty. rewrite line_turns_app.
  destruct (line_turns a); [congruence | discriminate].
Qed.

Lemma parse_google_script_concat_witness :
  line_turns "R|Hi" <> [] /\ line_turns "S: Bye" <> [] /\
  parse_google_script ("R|Hi" ++ NL ++ "S: Bye")
  = (parse_google_script "R|Hi" ++ parse_google_script "S: Bye")%list.
Proof.
  split; [vm_compute; discriminate|]. split; [vm_compute; discriminate|].
  apply parse_google_script_concat; vm_compute; discriminate.
Defined.

(** X4. Serialising the turns of a parsed script as pipe lines and parsing again gives back the same turns, provided no turn text contains a newline; this includes the paragraph fallback. *)
Theorem parse_google_script_normalise_idempotent (script : string) :
  Forall (fun t => no_nl (text t)) (parse_google_script script) ->
  parse_google_script (serialize (parse_google_script script)) = parse_google_script script.
Proof.
  intros Hn. pose proof (parse_wf script) as Hw.
  destruct (parse_google_script script) as [|t ts] eqn:E; [reflexivity|].
  apply parse_serialize; [discriminate|].
  apply Forall_forall. intros u Hu. rewrite Forall_forall in Hw, Hn.
  destruct (Hw u Hu) as (Hs & Hne & Hst). split; [exact Hs|].
  apply stripped_good_text; [exact Hst | exact Hne | exact (Hn u Hu)].
Qed.

Lemma parse_google_script_normalise_idempotent_witness :
  Forall (fun t => no_nl (text t)) (parse_google_script ("Hello there" ++ NL ++ NL ++ "  General Kenobi ")) /\
  parse_google_script (serialize (parse_google_script ("Hello there" ++ NL ++ NL ++ "  General Kenobi ")))
  = parse_google_script ("Hello there" ++ NL ++ NL ++ "  General Kenobi ").
Proof.
  split; [vm_compute; repeat constructor|].
  apply parse_google_script_normalise_idempotent. vm_compute. repeat constructor.
Defined.

Lemma body_step_length (topic : string) (ctx : context) (spk : list string) (i : nat) ts :
  body_step topic ctx spk i = Some ts ->
  length ts = 2 + (if (2 <? length spk) && (i mod 3 =? 0) then 1 else 0).
Proof.
  unfold body_step. destruct (response_text topic ctx i); [|discriminate].
  destruct ((2 <? length spk) && (i mod 3 =? 0)); intros H; injection H as <-; reflexivity.
Qed.

Lemma body_length (topic : string) (ctx : context) (spk : list string) (n : nat) :
  forall i b, body topic ctx spk i n = Some b ->
  length b = 2 * n + (if 2 <? length spk
                      then length (filter (fun j => j mod 3 =? 0) (seq i n)) else 0).
Proof.
  induction n as [|n IH]; intros i b E; cbn [body] in E.
  - injection E as <-. simpl. destruct (2 <? length spk); reflexivity.
  - destruct (body_step topic ctx spk i) as [ts|] eqn:Es; [|discriminate].
    destruct (body topic ctx spk (S i) n) as [rest|] eqn:Er; [|discriminate].
    replace b with (ts ++ rest)%list by congruence.
    rewrite length_app, (body_step_length _ _ _ _ _ Es), (IH (S i) rest Er).
    change (seq i (S n)) with (i :: seq (S i) n).
    change (filter (fun j => j mod 3 =? 0) (i :: seq (S i) n)) with
      (if i mod 3 =? 0 then i :: filter (fun j => j mod 3 =? 0) (seq (S i) n)
       else filter (fun j => j mod 3 =? 0) (seq (S i) n)).
    destruct (2 <? length spk); [destruct (i mod 3 =? 0)|]; simpl; lia.
Qed.

Lemma loop_count_le (d : Z) : loop_count d <= 10.
Proof. unfold loop_count. simpl length. lia. Qed.

Lemma multiples_of_3 (k : nat) :
  k <= 10 -> length (filter (fun j => j mod 3 =? 0) (seq 0 k)) = (k + 2) / 3.
Proof. intros Hk. do 11 (destruct k as [|k]; [reflexivity|]). lia. Qed.

Lemma opening_length_exact (topic f : string) :
  length (opening topic f (speakers (get_format f))) = if String.eqb f "debate" then 3 else 2.
Proof.
  destruct (get_format_speakers f) as [_ Hlen]. unfold opening.
  destruct (String.eqb f "interview") eqn:Ei.
  - apply String.eqb_eq in Ei. subst f. reflexivity.
  - destruct (String.eqb f "debate"); [reflexivity|].
    apply Nat.ltb_lt in Hlen. simpl length. rewrite Hlen. reflexivity.
Qed.

(** X5. The number of turns [generate_dialogue_turns] returns is the opening (3 for debate, 2 otherwise), two per loop iteration, one reaction per iteration index divisible by 3 when the format has more than two speakers, and 3 closing turns; it is never more than 30. *)
Theorem generate_turn_count (topic format_type : string) (d : Z) (ctx : context)
  (ts : list turn) :
  generate_dialogue_turns topic format_type d ctx = Some ts ->
  length ts = (if String.eqb format_type "debate" then 3 else 2) + 2 * loop_count d
              + (if 2 <? length (speakers (get_format format_type))
                 then (loop_count d + 2) / 3 else 0) + 3
  /\ length ts <= 30.
Proof.
  unfold generate_dialogue_turns.
  destruct (body topic ctx (speakers (get_format format_type)) 0 (loop_count d)) as [b|] eqn:Eb;
    [|discriminate].
  intros H. injection H as <-.
  destruct (get_format_speakers format_type) as [_ Hlen].
  rewrite !length_app, opening_length_exact, closing_length by exact Hlen.
  rewrite (body_length _ _ _ _ _ _ Eb), multiples_of_3 by apply loop_count_le.
  pose proof (loop_count_le d) as Hk.
  assert (Hs : length (speakers (get_format format_type)) <= 4).
  { unfold get_format. destruct (assoc format_type PODCAST_FORMATS) as [fi|] eqn:E;
      [catalog_cases E; simpl; lia | simpl; lia]. }
  assert (Hq : (loop_count d + 2) / 3 <= 4).
  { generalize (loop_count d) Hk. intros k Hk'. do 11 (destruct k as [|k]; [simpl; lia|]). lia. }
  split; [lia|].
  destruct (String.eqb format_type "debate"), (2 <? length (speakers (get_format format_type))); lia.
Qed.

Lemma generate_turn_count_witness :
  exists ts, generate_dialogue_turns "AI" "debate" 5 None = Some ts
  /\ length ts = 3 + 2 * loop_count 5 + (loop_count 5 + 2) / 3 + 3 /\ length ts <= 30.
Proof.
  destruct (generate_dialogue_turns "AI" "debate" 5 None) as [ts|] eqn:E; [|discriminate E].
  exists ts. split; [reflexivity|].
  exact (generate_turn_count "AI" "debate" 5 None ts E).
Defined.

(** X6. [generate_dialogue_turns] depends on the duration only through its value clamped to the range 2 to 7. *)
Theorem generate_duration_clamped (topic format_type : string) (d : Z) (ctx : context) :
  generate_dialogue_turns topic format_type d ctx
  = generate_dialogue_turns topic format_type (Z.max 2 (Z.min d 7)) ctx.
Proof.
  unfold generate_dialogue_turns.
  replace (loop_count (Z.max 2 (Z.min d 7))) with (loop_count d); [reflexivity|].
  unfold loop_count. simpl length. lia.
Qed.

(** X7. With a duration of at most 2 minutes the main loop does not run: the turns are the opening followed by the closing, even when the key points are an empty list. *)
Theorem generate_short_duration (topic format_type : string) (d : Z) (ctx : context) :
  (d <= 2)%Z ->
  generate_dialogue_turns topic format_type d ctx
  = Some (opening topic format_type (speakers (get_format format_type))
          ++ closing topic (speakers (get_format format_type)))%list.
Proof.
  intros Hd. unfold generate_dialogue_turns.
  replace (loop_count d) with 0 by (unfold loop_count; simpl length; lia).
  reflexivity.
Qed.

Lemma generate_short_duration_witness :
  (2 <= 2)%Z /\
  generate_dialogue_turns "AI" "debate" 2 (Some [])
  = Some (opening "AI" "debate" (speakers (get_format "debate"))
          ++ closing "AI" (speakers (get_format "debate")))%list.
Proof. split; [lia | apply generate_short_duration; lia]. Defined.

Lemma speakers_shapes (f : string) :
  speakers (get_format f) = ["R"; "S"] \/ speakers (get_format f) = ["R"; "S"; "T"]
  \/ speakers (get_format f) = ["R"; "S"; "T"; "U"].
Proof.
  unfold get_format. destruct (assoc f PODCAST_FORMATS) as [fi|] eqn:E; [|now left].
  catalog_cases E; simpl; tauto.
Qed.

Section BodySpeakers.

Variables (topic : string) (ctx : context) (spk : list string).
Hypothesis H0 : at_ spk 0 = "R".
Hypothesis H1 : at_ spk (1 mod length spk) = "S".
Hypothesis H2 : 2 < length spk -> at_ spk (2 mod length spk) = "T".

Lemma body_step_speakers (i : nat) ts :
  body_step topic ctx spk i = Some ts ->
  map speaker ts = ["R"; "S"] \/ map speaker ts = ["R"; "S"; "T"].
Proof.
  unfold body_step. destruct (response_text topic ctx i); [|discriminate].
  destruct ((2 <? length spk) && (i mod 3 =? 0)) eqn:Ec; intros H; injection H as <-.
  - right. apply andb_true_iff in Ec as [Ec _]. apply Nat.ltb_lt in Ec.
    simpl. rewrite H0, H1, (H2 Ec). reflexivity.
  - left. simpl. rewrite H0, H1. reflexivity.
Qed.

Lemma body_no_repeat (n : nat) :
  forall i b, body topic ctx spk i n = Some b ->
  exists L, (map speaker b ++ ["R"; "S"; "R"])%list = "R" :: L
            /\ no_adjacent_repeat ("R" :: L) = true.
Proof.
  induction n as [|n IH]; intros i b E; cbn [body] in E.
  - injection E as <-. exists ["S"; "R"]. split; reflexivity.
  - destruct (body_step topic ctx spk i) as [ts|] eqn:Es; [|discriminate].
    destruct (body topic ctx spk (S i) n) as [rest|] eqn:Er; [|discriminate].
    replace b with (ts ++ rest)%list by congruence.
    destruct (IH (S i) rest Er) as (L & EL & HL).
    rewrite map_app, <- app_assoc, EL.
    destruct (body_step_speakers i ts Es) as [-> | ->].
    + exists ("S" :: "R" :: L). split; [reflexivity|]. exact HL.
    + exists ("S" :: "T" :: "R" :: L). split; [reflexivity|]. exact HL.
Qed.

End BodySpeakers.

(** X8. No two consecutive turns returned by [generate_dialogue_turns] have the same speaker. *)
Theorem generate_no_consecutive_speaker (topic format_type : string) (d : Z) (ctx : context)
  (ts : list turn) :
  generate_dialogue_turns topic format_type d ctx = Some ts ->
  no_adjacent_repeat (map speaker ts) = true.
Proof.
  unfold generate_dialogue_turns.
  set (spk := speakers (get_format format_type)).
  destruct (body topic ctx spk 0 (loop_count d)) as [b|] eqn:Eb; [|discriminate].
  intros H. injection H as <-.
  assert (Hs : at_ spk 0 = "R" /\ at_ spk (1 mod length spk) = "S"
               /\ (2 < length spk -> at_ spk (2 mod length spk) = "T")
               /\ 1 < length spk).
  { unfold spk. destruct (speakers_shapes format_type) as [-> | [-> | ->]];
      (split; [reflexivity | split; [reflexivity | split; [intros; simpl in *; try lia; reflexivity | simpl; lia]]]). }
  destruct Hs as (Hs0 & Hs1 & Hs2 & Hlen).
  destruct (body_no_repeat topic ctx spk Hs0 Hs1 Hs2 _ _ _ Eb) as (L & EL & HL).
  assert (Hc : map speaker (closing topic spk) = ["R"; "S"; "R"]).
  { unfold closing. apply Nat.ltb_lt in Hlen. rewrite Hlen. simpl.
    rewrite Hs0. replace (at_ spk 1) with "S"; [reflexivity|].
    rewrite <- Hs1. f_equal. apply Nat.mod_small. apply Nat.ltb_lt in Hlen. lia. }
  rewrite !map_app, Hc, EL.
  assert (Ho : map speaker (opening topic format_type spk) = ["R"; "S"]
               \/ map speaker (opening topic format_type spk) = ["R"; "S"; "T"]).
  { unfold opening. destruct (String.eqb format_type "interview"); [now left|].
    destruct (String.eqb format_type "debate"); [now right|].
    left. apply Nat.ltb_lt in Hlen. rewrite Hlen. simpl. rewrite Hs0.
    replace (at_ spk 1) with "S"; [reflexivity|].
    rewrite <- Hs1. f_equal. apply Nat.mod_small. apply Nat.ltb_lt in Hlen. lia. }
  destruct Ho as [-> | ->]; exact HL.
Qed.

Lemma generate_no_consecutive_speaker_witness :
  exists ts, generate_dialogue_turns "AI" "roundtable" 9 (Some ["Mars"]) = Some ts
  /\ no_adjacent_repeat (map speaker ts) = true.
Proof.
  destruct (generate_dialogue_turns "AI" "roundtable" 9 (Some ["Mars"])) as [ts|] eqn:E;
    [|discriminate E].
  exists ts. split; [reflexivity|].
  exact (generate_no_consecutive_speaker "AI" "roundtable" 9 (Some ["Mars"]) ts E).
Defined.

Lemma get_format_in_catalog (f : string) : In (get_format f) (map snd PODCAST_FORMATS).
Proof.
  unfold get_format. destruct (assoc f PODCAST_FORMATS) as [fi|] eqn:E; [|simpl; now left].
  catalog_cases E; simpl; tauto.
Qed.

Lemma speaker_assignments_catalog (fi : format_info) :
  In fi (map snd PODCAST_FORMATS) -> exists a, speaker_assignments fi (speakers fi) = Some a.
Proof.
  simpl. intros H. repeat destruct H as [<- | H]; try (eexists; reflexivity). contradiction.
Qed.

Lemma prompt_requirements_end (d : Z) (fi : format_info) :
  exists q, prompt_requirements d fi = q ++ "Topic focus areas:".
Proof. unfold prompt_requirements. rewrite <- !str_app_assoc. eexists. reflexivity. Qed.

(** X9. [generate_google_tts_prompt] never fails: without additional context the prompt ends with "Topic focus areas:", and the additional context only appends one line per entry at the end. *)
Theorem generate_google_tts_prompt_context_at_end (topic format_type : string) (d : Z)
  (additional_context : list (string * string)) :
  exists p q, generate_google_tts_prompt topic format_type d [] = Some p
  /\ p = q ++ "Topic focus areas:"
  /\ generate_google_tts_prompt topic format_type d additional_context
     = Some (p ++ context_lines additional_context).
Proof.
  destruct (speaker_assignments_catalog _ (get_format_in_catalog format_type)) as [a Ea].
  destruct (prompt_requirements_end d (get_format format_type)) as [q Eq].
  unfold generate_google_tts_prompt. rewrite Ea.
  exists (prompt_header topic format_type d (get_format format_type) ++ a
          ++ prompt_requirements d (get_format format_type) ++ "").
  exists (prompt_header topic format_type d (get_format format_type) ++ a ++ q).
  split; [reflexivity|]. split.
  - rewrite str_app_nil_r, Eq, !str_app_assoc. reflexivity.
  - f_equal. rewrite str_app_nil_r, !str_app_assoc.
    destruct additional_context; reflexivity.
Qed.

(** X10. For a format name missing from the catalog, the prompt names that format in its first sentence and is otherwise the prompt of the dialogue format. *)
Theorem generate_google_tts_prompt_unknown_format (topic format_type : string) (d : Z)
  (additional_context : list (string * string)) :
  assoc format_type PODCAST_FORMATS = None ->
  exists rest,
    generate_google_tts_prompt topic format_type d additional_context
    = Some ("Create a natural " ++ format_type ++ rest)
    /\ generate_google_tts_prompt topic "dialogue" d additional_context
       = Some ("Create a natural " ++ "dialogue" ++ rest).
Proof.
  intros Hf. unfold generate_google_tts_prompt, get_format. rewrite Hf.
  change (assoc "dialogue" PODCAST_FORMATS) with (Some dialogue_format). cbv iota beta.
  destruct (speaker_assignments dialogue_format (speakers dialogue_format)) as [a|] eqn:Ea;
    [|vm_compute in Ea; discriminate Ea].
  eexists. split; unfold prompt_header; rewrite !str_app_assoc; reflexivity.
Qed.

Lemma generate_google_tts_prompt_unknown_format_witness :
  assoc "weird" PODCAST_FORMATS = None /\
  exists rest,
    generate_google_tts_prompt "AI" "weird" 4 [("tone", "calm")]
    = Some ("Create a natural " ++ "weird" ++ rest)
    /\ generate_google_tts_prompt "AI" "dialogue" 4 [("tone", "calm")]
       = Some ("Create a natural " ++ "dialogue" ++ rest).
Proof.
  split; [reflexivity|]. apply generate_google_tts_prompt_unknown_format. reflexivity.
Defined.

(** X11. When the script is non-empty and the credentials, library and client are available, [create_google_audio] reports that no turn was found exactly when the script is blank; otherwise it synthesises the parsed turns, which are non-empty and well formed. *)
Theorem create_google_audio_turns (script : string) :
  script <> "" ->
  (create_google_audio script true true true = AudioNoTurns <-> strip script = "")
  /\ (forall turns, create_google_audio script true true true = AudioSynthesize turns ->
        turns = parse_google_script script /\ turns <> []
        /\ Forall well_formed_turn turns).
Proof.
  intros Hs. unfold create_google_audio.
  apply String.eqb_neq in Hs. rewrite Hs. cbn [negb].
  pose proof (parse_nil_iff script) as Hn. pose proof (parse_wf script) as Hw.
  destruct (parse_google_script script) as [|t ts] eqn:E.
  - split; [split; [intros _; now apply Hn | reflexivity] | discriminate].
  - split.
    + split; [discriminate|]. intros H. apply Hn in H. discriminate.
    + intros turns H. injection H as <-. split; [reflexivity|]. split; [discriminate | exact Hw].
Qed.

Lemma create_google_audio_turns_witness :
  "R|Hi" <> "" /\
  (create_google_audio "R|Hi" true true true = AudioNoTurns <-> strip "R|Hi" = "")
  /\ (forall turns, create_google_audio "R|Hi" true true true = AudioSynthesize turns ->
        turns = parse_google_script "R|Hi" /\ turns <> []
        /\ Forall well_formed_turn turns).
Proof. split; [discriminate|]. apply create_google_audio_turns. discriminate. Defined.

Lemma assoc_count_into (acc : list (string * nat)) (s k : string) :
  assoc k (count_into acc s)
  = if String.eqb k s then Some (match assoc k acc with Some v => v + 1 | None => 1 end)
    else assoc k acc.
Proof.
  induction acc as [|[k' v] r IH]; simpl.
  - destruct (String.eqb k s); reflexivity.
  - destruct (String.eqb k' s) eqn:E1; simpl.
    + apply String.eqb_eq in E1. subst k'.
      destruct (String.eqb k s); reflexivity.
    + rewrite IH. destruct (String.eqb k k') eqn:E2; [|reflexivity].
      apply String.eqb_eq in E2. subst k'. now rewrite E1.
Qed.

Lemma keys_count_into (acc : list (string * nat)) (s k : string) :
  In k (map fst (count_into acc s)) -> In k (map fst acc) \/ k = s.
Proof.
  induction acc as [|[k' v] r IH]; simpl.
  - intros [<- | []]. now right.
  - destruct (String.eqb k' s); simpl; [tauto|]. intros [<- | H]; [tauto|].
    destruct (IH H); tauto.
Qed.

Lemma nodup_count_into (acc : list (string * nat)) (s : string) :
  NoDup (map fst acc) -> NoDup (map fst (count_into acc s)).
Proof.
  induction acc as [|[k' v] r IH]; simpl; intros H.
  - repeat constructor. simpl. tauto.
  - inversion H as [|? ? Hk Hr]. destruct (String.eqb k' s) eqn:E; simpl.
    + constructor; assumption.
    + constructor; [|now apply IH]. intros Hin.
      destruct (keys_count_into r s k' Hin) as [Hin' | ->]; [contradiction|].
      rewrite String.eqb_refl in E. discriminate.
Qed.

Lemma sum_count_into (acc : list (string * nat)) (s : string) :
  list_sum (map snd (count_into acc s)) = S (list_sum (map snd acc)).
Proof.
  induction acc as [|[k' v] r IH]; simpl; [reflexivity|].
  destruct (String.eqb k' s); simpl; [lia | rewrite IH; lia].
Qed.

Lemma speaker_count_snoc (k : string) (p : list turn) (t : turn) :
  speaker_count k (p ++ [t])%list = speaker_count k p + (if String.eqb (speaker t) k then 1 else 0).
Proof.
  unfold speaker_count. rewrite filter_app, length_app. simpl.
  destruct (String.eqb (speaker t) k); reflexivity.
Qed.

Lemma counts_inv_fold (r p : list turn) (acc : list (string * nat)) :
  counts_inv acc p ->
  counts_inv (fold_left (fun acc t => count_into acc (speaker t)) r acc) (p ++ r)%list.
Proof.
  revert p acc. induction r as [|t r IH]; intros p acc Hinv; simpl; [now rewrite app_nil_r|].
  replace (p ++ t :: r)%list with ((p ++ [t]) ++ r)%list by now rewrite <- app_assoc.
  apply IH. destruct Hinv as (Hnd & Has & Hsum). split; [|split].
  - now apply nodup_count_into.
  - intros k. rewrite assoc_count_into, speaker_count_snoc, Has.
    rewrite (String.eqb_sym (speaker t) k).
    destruct (String.eqb k (speaker t)).
    + destruct (speaker_count k p =? 0) eqn:E.
      * apply Nat.eqb_eq in E. rewrite E. reflexivity.
      * apply Nat.eqb_neq in E.
        replace (speaker_count k p + 1 =? 0) with false by (symmetry; apply Nat.eqb_neq; lia).
        reflexivity.
    + now rewrite Nat.add_0_r.
  - rewrite sum_count_into, length_app, Hsum. simpl. lia.
Qed.

Lemma counts_inv_speaker_counts (ts : list turn) : counts_inv (speaker_counts ts) ts.
Proof.
  unfold speaker_counts. apply (counts_inv_fold ts [] []).
  split; [constructor|]. split; [reflexivity | reflexivity].
Qed.

Lemma insert_item_perm (x : string * nat) (l : list (string * nat)) :
  Permutation (insert_item x l) (x :: l).
Proof.
  induction l as [|y r IH]; simpl; [reflexivity|].
  destruct (String.leb (fst x) (fst y)); [reflexivity|].
  rewrite IH. apply perm_swap.
Qed.

Lemma sort_items_perm (l : list (string * nat)) : Permutation (sort_items l) l.
Proof.
  induction l as [|x r IH]; simpl; [reflexivity|].
  rewrite insert_item_perm. now apply perm_skip.
Qed.

Lemma list_sum_perm (l1 l2 : list nat) : Permutation l1 l2 -> list_sum l1 = list_sum l2.
Proof. induction 1; simpl; lia. Qed.

Lemma assoc_nodup_In {A} (k : string) (v : A) (m : list (string * A)) :
  NoDup (map fst m) -> In (k, v) m -> assoc k m = Some v.
Proof.
  induction m as [|[k' v'] m IH]; simpl; [tauto|]. intros Hnd Hin.
  inversion Hnd as [|? ? Hk Hm]. destruct Hin as [E | Hin].
  - injection E as -> ->. now rewrite String.eqb_refl.
  - destruct (String.eqb k k') eqn:E.
    + apply String.eqb_eq in E. exfalso. apply Hk. rewrite <- E.
      exact (in_map fst _ _ Hin).
    + now apply IH.
Qed.

Lemma speaker_count_pos (k : string) (ts : list turn) :
  0 < speaker_count k ts -> exists t, In t ts /\ speaker t = k.
Proof.
  unfold speaker_count. intros H.
  destruct (filter (fun t => String.eqb (speaker t) k) ts) as [|t r] eqn:E; [simpl in H; lia|].
  assert (Ht : In t (filter (fun t => String.eqb (speaker t) k) ts)) by (rewrite E; now left).
  apply filter_In in Ht as [Hin Hk]. apply String.eqb_eq in Hk. now exists t.
Qed.

Lemma speaker_guide_some (keys : list string) :
  Forall (fun k => is_google_speaker k = true) keys -> exists g, speaker_guide keys = Some g.
Proof.
  induction 1 as [|k ks Hk _ [g IH]]; [now exists []|].
  simpl. rewrite IH.
  destruct (google_speaker_cases k Hk) as [-> | [-> | [-> | ->]]]; eexists; reflexivity.
Qed.

(** X12. The summary of [create_google_audio] lists each speaker of the parsed turns once, with its number of turns, which is positive; the counts add up to the number of turns, and the speaker guide finds an entry for every listed speaker. *)
Theorem create_google_audio_summary (script : string) :
  let turns := parse_google_script script in
  let items := sort_items (speaker_counts turns) in
  (forall k n, In (k, n) items <-> n = speaker_count k turns /\ 0 < n)
  /\ NoDup (map fst items)
  /\ list_sum (map snd items) = length turns
  /\ exists guide, speaker_guide (map fst items) = Some guide.
Proof.
  intros turns items.
  destruct (counts_inv_speaker_counts turns) as (Hnd & Has & Hsum).
  pose proof (sort_items_perm (speaker_counts turns)) as Hp. fold items in Hp.
  assert (Hnd' : NoDup (map fst items)).
  { eapply Permutation_NoDup; [|exact Hnd]. symmetry. now apply Permutation_map. }
  assert (Hin : forall k n, In (k, n) items <-> n = speaker_count k turns /\ 0 < n).
  { intros k n. split.
    - intros H. apply (Permutation_in _ Hp) in H.
      pose proof (assoc_nodup_In k n _ Hnd H) as Ha. rewrite Has in Ha.
      destruct (speaker_count k turns =? 0) eqn:E; [discriminate|].
      apply Nat.eqb_neq in E. injection Ha as <-. split; [reflexivity | lia].
    - intros [-> Hpos]. apply (Permutation_in _ (Permutation_sym Hp)).
      apply (assoc_In k). rewrite Has.
      replace (speaker_count k turns =? 0) with false by (symmetry; apply Nat.eqb_neq; lia).
      reflexivity. }
  split; [exact Hin|]. split; [exact Hnd'|]. split.
  - rewrite (list_sum_perm _ _ (Permutation_map snd Hp)). exact Hsum.
  - apply speaker_guide_some. apply Forall_forall. intros k Hk.
    apply in_map_iff in Hk as ([k' n] & <- & Hkn). apply Hin in Hkn as [-> Hpos].
    destruct (speaker_count_pos k' turns Hpos) as (t & Ht & <-).
    pose proof (parse_wf script) as Hw. rewrite Forall_forall in Hw.
    now destruct (Hw t Ht).
Qed.

Lemma dot_plus_end_group_nonl (r g : string) :
  dot_plus_end r = Some g -> has_char nl g = false.
Proof.
  revert g. induction r as [|c r IH]; intros g H; [discriminate|].
  destruct r as [|c' r'].
  - simpl in H. destruct (Ascii.eqb c nl) eqn:Ec; [discriminate|].
    injection H as <-. simpl. now rewrite Ec.
  - change (dot_plus_end (String c (String c' r'))) with
      (if Ascii.eqb c nl then None
       else match dot_plus_end (String c' r') with
            | Some g => Some (String c g)
            | None => if String.eqb (String c' r') NL then Some (String c EmptyString) else None
            end) in H.
    destruct (Ascii.eqb c nl) eqn:Ec; [discriminate|].
    destruct (dot_plus_end (String c' r')) as [g'|] eqn:Ed.
    + injection H as <-. simpl. rewrite Ec. now apply IH.
    + destruct (String.eqb (String c' r') NL); [|discriminate].
      injection H as <-. simpl. now rewrite Ec.
Qed.

Lemma ws_then_dot_plus_end_group_nonl (r g : string) :
  ws_then_dot_plus_end r = Some g -> has_char nl g = false.
Proof.
  revert g. induction r as [|c r IH]; intros g H; [discriminate|].
  change (ws_then_dot_plus_end (String c r)) with
    (if is_space c then
       match ws_then_dot_plus_end r with
       | Some g => Some g
       | None => dot_plus_end (String c r)
       end
     else dot_plus_end (String c r)) in H.
  destruct (is_space c); [destruct (ws_then_dot_plus_end r) eqn:Ew|].
  - injection H as <-. now apply IH.
  - now apply dot_plus_end_group_nonl in H.
  - now apply dot_plus_end_group_nonl in H.
Qed.

Section LabelGroup.

Variable tail : string -> option string.
Variable P : string -> Prop.
Hypothesis tail_P : forall r g, tail r = Some g -> P g.

Lemma colon_tail_group (r g : string) : colon_tail tail r = Some g -> P g.
Proof.
  unfold colon_tail. destruct (lstrip r) as [|c r']; [discriminate|].
  destruct (Ascii.eqb c colon); [apply tail_P | discriminate].
Qed.

Lemma lazy_close_group (s g : string) : lazy_close tail s = Some g -> P g.
Proof.
  induction s as [|c s IH]; [discriminate|]. simpl.
  destruct (if Ascii.eqb c "]" then colon_tail tail s else None) eqn:E.
  - intros H. injection H as <-.
    destruct (Ascii.eqb c "]"); [now apply colon_tail_group in E | discriminate].
  - destruct (Ascii.eqb c nl); [discriminate | exact IH].
Qed.

Lemma after_label_group (r g : string) : after_label tail r = Some g -> P g.
Proof.
  unfold after_label.
  destruct (match lstrip r with
            | String c r' => if Ascii.eqb c "[" then lazy_close tail r' else None
            | EmptyString => None
            end) eqn:E.
  - intros H. injection H as <-. destruct (lstrip r) as [|c r']; [discriminate|].
    destruct (Ascii.eqb c "["); [now apply lazy_close_group in E | discriminate].
  - apply colon_tail_group.
Qed.

Lemma label_search_group (acc s g1 g2 : string) :
  label_search tail acc s = Some (g1, g2) -> P g2.
Proof.
  revert acc. induction s as [|c s IH]; intros acc; [discriminate|]. simpl.
  destruct (label_char c); [|discriminate].
  destruct (after_label tail s) eqn:E.
  - intros H. injection H as _ <-. now apply after_label_group in E.
  - apply IH.
Qed.

End LabelGroup.

Lemma convert_match_group_nonl (line g1 g2 : string) :
  convert_match line = Some (g1, g2) -> has_char nl g2 = false.
Proof.
  apply (label_search_group ws_then_dot_plus_end (fun g => has_char nl g = false)).
  exact ws_then_dot_plus_end_group_nonl.
Qed.

Lemma convert_line_turn (m : list (string * string)) (line out : string) :
  convert_line m line = Some out ->
  exists k v t, assoc k m = Some v /\ out = v ++ "|" ++ t
    /\ t <> "" /\ strip t = t /\ has_char nl t = false.
Proof.
  unfold convert_line. cbv zeta.
  destruct (String.eqb (strip line) ""); [discriminate|].
  destruct (has_char colon (strip line)); [|discriminate].
  destruct (convert_match (strip line)) as [[g1 g2]|] eqn:Em; [|discriminate].
  destruct (assoc (strip g1) m) as [v|] eqn:E; [|discriminate].
  destruct (String.eqb (strip g2) "") eqn:Et; [rewrite andb_false_r; discriminate|].
  destruct (negb (String.eqb v "")); [|discriminate].
  intros H. injection H as <-. exists (strip g1), v, (strip g2).
  split; [exact E|]. split; [reflexivity|]. split; [now apply String.eqb_neq|].
  split; [apply strip_idem|]. apply has_char_strip. now apply convert_match_group_nonl in Em.
Qed.

Lemma forall_exists_map {A B} (P : B -> Prop) (f : B -> A) (l : list A) :
  Forall (fun a => exists b, P b /\ a = f b) l -> exists bs, l = map f bs /\ Forall P bs.
Proof.
  induction 1 as [|a l (b & Hb & ->) _ (bs & -> & Hbs)]; [now exists []|].
  exists (b :: bs). split; [reflexivity | now constructor].
Qed.

Lemma convert_ok_turns (script : string) (m m' : list (string * string)) (out : string) :
  convert_to_google_format script m = ConvertOk m' out ->
  exists ts, converted_lines script m' = map turn_line ts /\ ts <> []
    /\ Forall good_turn ts /\ out = serialize ts.
Proof.
  unfold convert_to_google_format.
  destruct (String.eqb script ""); [discriminate|].
  set (m0 := match m with [] => auto_mapping script | _ => m end).
  destruct (converted_lines script m0) as [|l0 cl0] eqn:Ecl; [discriminate|].
  destruct (forallb (fun kv => is_google_speaker (snd kv)) m0) eqn:Eall; [|discriminate].
  intros H. injection H as <- <-.
  assert (Hf : Forall (fun l => exists t, good_turn t /\ l = turn_line t) (l0 :: cl0)).
  { rewrite <- Ecl. unfold converted_lines. apply filter_some_forall.
    intros line out Hl.
    destruct (convert_line_turn _ _ _ Hl) as (k & v & t & Ha & -> & Hne & Hs & Hn).
    exists {| speaker := v; text := t |}. split; [|reflexivity]. split.
    - apply assoc_In in Ha. rewrite forallb_forall in Eall. exact (Eall (k, v) Ha).
    - now apply stripped_good_text. }
  destruct (forall_exists_map _ _ _ Hf) as (ts & Ets & Hts).
  exists ts. rewrite Ecl, Ets. split; [reflexivity|].
  split; [destruct ts; discriminate|]. split; [exact Hts|].
  change (join NL (l0 :: cl0) = serialize ts). now rewrite Ets.
Qed.

Lemma serialize_lines (ts : list turn) :
  ts <> [] -> Forall good_turn ts -> split_char nl (serialize ts) = map turn_line ts.
Proof.
  intros Hne Hts. unfold serialize. apply split_join.
  - destruct ts; [congruence | discriminate].
  - apply Forall_map. eapply Forall_impl; [|exact Hts].
    intros t Ht. now destruct (turn_line_good t Ht) as [_ (_ & _ & Hn)].
Qed.

(** X13. Every script [convert_to_google_format] returns parses back line by line: each output line is the pipe line of the turn parsed from it. *)
Theorem convert_to_google_format_parses_back (script : string)
  (m m' : list (string * string)) (out : string) :
  convert_to_google_format script m = ConvertOk m' out ->
  map turn_line (parse_google_script out) = split_char nl out.
Proof.
  intros H. destruct (convert_ok_turns _ _ _ _ H) as (ts & _ & Hne & Hts & ->).
  rewrite (parse_serialize ts Hne Hts). symmetry. now apply serialize_lines.
Qed.

Lemma convert_to_google_format_parses_back_witness :
  exists m' out, convert_to_google_format alice_bob [] = ConvertOk m' out
  /\ map turn_line (parse_google_script out) = split_char nl out.
Proof.
  exists [("Alice", "R"); ("Bob", "S")], ("R|Hi there" ++ NL ++ "S|Hello back").
  split; [vm_compute; reflexivity|].
  exact (convert_to_google_format_parses_back alice_bob [] _ _ ltac:(vm_compute; reflexivity)).
Defined.

(** X14. With the automatic mapping (no mapping given), [convert_to_google_format] never raises the [KeyError] of the speaker lookup. *)
Theorem convert_to_google_format_auto_no_key_error (script : string) :
  convert_to_google_format script [] <> ConvertKeyError.
Proof.
  unfold convert_to_google_format.
  destruct (String.eqb script ""); [discriminate|].
  destruct (converted_lines script (auto_mapping script)); [discriminate|].
  replace (forallb _ (auto_mapping script)) with true; [discriminate|].
  symmetry. apply forallb_forall. intros [k v] Hin. simpl.
  rewrite auto_mapping_combine in Hin. apply in_combine_r in Hin.
  unfold is_google_speaker. apply existsb_exists. exists v. split; [exact Hin | apply String.eqb_refl].
Qed.

Lemma filter_some_length {A B} (f : A -> option B) (l : list A) :
  length (filter_some (map f l)) <= length l.
Proof.
  induction l as [|x l IH]; simpl; [lia|]. destruct (f x); simpl; lia.
Qed.

(** X15. A converted script has one turn per line and never has more lines than the input script. *)
Theorem convert_to_google_format_line_count (script : string)
  (m m' : list (string * string)) (out : string) :
  convert_to_google_format script m = ConvertOk m' out ->
  length (parse_google_script out) = length (split_char nl out)
  /\ length (split_char nl out) <= length (split_char nl script).
Proof.
  intros H. destruct (convert_ok_turns _ _ _ _ H) as (ts & Ecl & Hne & Hts & ->).
  rewrite (parse_serialize ts Hne Hts), (serialize_lines ts Hne Hts), length_map.
  split; [reflexivity|]. rewrite <- (length_map turn_line ts), <- Ecl.
  apply filter_some_length.
Qed.

Lemma convert_to_google_format_line_count_witness :
  exists m' out, convert_to_google_format alice_bob [] = ConvertOk m' out
  /\ length (parse_google_script out) = length (split_char nl out)
  /\ length (split_char nl out) <= length (split_char nl alice_bob).
Proof.
  exists [("Alice", "R"); ("Bob", "S")], ("R|Hi there" ++ NL ++ "S|Hello back").
  split; [vm_compute; reflexivity|].
  exact (convert_to_google_format_line_count alice_bob [] _ _ ltac:(vm_compute; reflexivity)).
Defined.

Lemma mod2_even (i : nat) : i mod 2 = if Nat.even i then 0 else 1.
Proof.
  destruct (Nat.even i) eqn:E.
  - apply Nat.even_spec in E as [k ->]. rewrite Nat.mul_comm. apply Nat.Div0.mod_mul.
  - assert (Ho : Nat.odd i = true) by (unfold Nat.odd; now rewrite E).
    apply Nat.odd_spec in Ho as [k ->].
    rewrite Nat.add_comm, Nat.mul_comm, Nat.Div0.mod_add. reflexivity.
Qed.

Lemma assign_paragraphs_text (i : nat) (ps : list string) :
  map text (assign_paragraphs i ps) = ps.
Proof.
  revert i. induction ps as [|p ps IH]; intros i; cbn [assign_paragraphs map]; [reflexivity|].
  now rewrite IH.
Qed.

Lemma assign_paragraphs_speaker (i : nat) (ps : list string) :
  map speaker (assign_paragraphs i ps)
  = map (fun j => if Nat.even j then "R" else "S") (seq i (length ps)).
Proof.
  revert i. induction ps as [|p ps IH]; intros i; cbn [assign_paragraphs map length seq];
    [reflexivity|].
  rewrite IH. f_equal. cbn [speaker]. rewrite mod2_even.
  destruct (Nat.even i); reflexivity.
Qed.

(** X16. When no line of a non-blank script parses as a turn, [parse_google_script] returns one turn per non-blank paragraph, with the stripped paragraph as text and speakers alternating R, S, R, S, ... from the first. *)
Theorem parse_google_script_paragraph_fallback (script : string) :
  line_turns script = [] -> strip script <> "" ->
  map text (parse_google_script script) = paragraphs script
  /\ map speaker (parse_google_script script)
     = map (fun i => if Nat.even i then "R" else "S") (seq 0 (length (paragraphs script))).
Proof.
  intros Hl Hs. rewrite parse_google_script_line_turns, Hl.
  apply String.eqb_neq in Hs. rewrite Hs.
  split; [apply assign_paragraphs_text | apply assign_paragraphs_speaker].
Qed.

Lemma parse_google_script_paragraph_fallback_witness :
  let s := "Hello there" ++ NL ++ NL ++ "General Kenobi" ++ NL ++ NL ++ "You are a bold one" in
  line_turns s = [] /\ strip s <> "" /\
  map text (parse_google_script s) = paragraphs s
  /\ map speaker (parse_google_script s)
     = map (fun i => if Nat.even i then "R" else "S") (seq 0 (length (paragraphs s))).
Proof.
  intros s.
  assert (H1 : line_turns s = []) by (vm_compute; reflexivity).
  assert (H2 : strip s <> "") by (vm_compute; discriminate).
  split; [exact H1|]. split; [exact H2|].
  exact (parse_google_script_paragraph_fallback s H1 H2).
Defined.

Lemma rstrip_nonspace_cons (c : ascii) (r : string) :
  is_space c = false -> rstrip (String c r) = String c (rstrip r).
Proof. intros Hc. simpl. destruct (rstrip r); [now rewrite Hc | reflexivity]. Qed.

Lemma strip_nonspace_cons (c : ascii) (r : string) :
  is_space c = false -> strip (String c r) = String c (rstrip r).
Proof. intros Hc. unfold strip. simpl. rewrite Hc. now apply rstrip_nonspace_cons. Qed.

Lemma rstrip_idem (s : string) : rstrip (rstrip s) = rstrip s.
Proof.
  induction s as [|c s IH]; [reflexivity|]. simpl.
  destruct (rstrip s) as [|a r] eqn:E.
  - destruct (is_space c) eqn:Ec; [reflexivity|]. simpl. now rewrite Ec.
  - change (rstrip (String c (String a r))) with
      (match rstrip (String a r) with
       | EmptyString => if is_space c then EmptyString else String c EmptyString
       | r0 => String c r0
       end).
    now rewrite IH.
Qed.

Lemma strip_rstrip (s : string) : strip (rstrip s) = strip s.
Proof. apply strip_eq_rstrip. apply rstrip_idem. Qed.


(** X17. The pipe tier accepts a speaker id in either case: a line made of R, S, T or U (or its lower-case form), a pipe and any text gives a turn for the upper-case id with the stripped text, unless that text is blank. *)
Theorem parse_line_pipe_speaker_case (sp x : string) :
  In sp ["R"; "S"; "T"; "U"; "r"; "s"; "t"; "u"] ->
  parse_line (sp ++ "|" ++ x)
  = if String.eqb (strip x) "" then None
    else Some {| speaker := upper sp; text := strip x |}.
Proof.
  intros Hin. simpl in Hin.
  repeat (destruct Hin as [<- | Hin];
    [ unfold parse_line; cbv zeta; simpl append;
      rewrite strip_nonspace_cons by reflexivity;
      rewrite rstrip_nonspace_cons by reflexivity;
      rewrite <- (strip_rstrip x); remember (rstrip x) as y; simpl;
      destruct (String.eqb (strip y) ""); reflexivity |]).
  destruct Hin.
Qed.

Lemma parse_line_pipe_speaker_case_witness :
  In "t" ["R"; "S"; "T"; "U"; "r"; "s"; "t"; "u"] /\
  parse_line ("t" ++ "|" ++ " a|b: c ")
  = if String.eqb (strip " a|b: c ") "" then None
    else Some {| speaker := upper "t"; text := strip " a|b: c " |}.
Proof.
  split; [simpl; tauto|]. apply parse_line_pipe_speaker_case. simpl; tauto.
Defined.

Lemma google_speaker_info_some (k : string) :
  is_google_speaker k = true -> exists e, assoc k GOOGLE_SPEAKER_INFO = Some e.
Proof.
  intros Hk. destruct (google_speaker_cases k Hk) as [-> | [-> | [-> | ->]]]; eexists; reflexivity.
Qed.

(** X18. Every speaker of a turn returned by [generate_dialogue_turns] has an entry in [GOOGLE_SPEAKERS], so the lookup [GOOGLE_SPEAKERS[turn['speaker']]] of the test script never fails. *)
Theorem generate_speakers_have_info (topic format_type : string) (d : Z) (ctx : context)
  (ts : list turn) :
  generate_dialogue_turns topic format_type d ctx = Some ts ->
  Forall (fun t => exists e, assoc (speaker t) GOOGLE_SPEAKER_INFO = Some e) ts.
Proof.
  unfold generate_dialogue_turns.
  set (spk := speakers (get_format format_type)).
  destruct (body topic ctx spk 0 (loop_count d)) as [b|] eqn:Eb; [|discriminate].
  intros H. injection H as <-.
  assert (Hg : Forall (fun t => is_google_speaker (speaker t) = true)
                 (opening topic format_type spk ++ b ++ closing topic spk)%list).
  { pose proof (body_speakers topic ctx spk b) as Hbs.
    pose proof (body_turns topic ctx spk _ 0 b Eb) as Hb.
    unfold spk in *. destruct (speakers_shapes format_type) as [E | [E | E]]; rewrite E in *;
      (apply Forall_app; split;
       [ unfold opening; destruct (String.eqb format_type "interview");
         [|destruct (String.eqb format_type "debate")]; repeat constructor
       | apply Forall_app; split;
         [ eapply Forall_impl; [|exact (Hbs ltac:(discriminate) Hb)];
           intros t Ht; simpl in Ht;
           repeat (destruct Ht as [<- | Ht]; [reflexivity|]); destruct Ht
         | repeat constructor ] ]). }
  eapply Forall_impl; [|exact Hg]. intros t Ht. now apply google_speaker_info_some.
Qed.

Lemma generate_speakers_have_info_witness :
  exists ts, generate_dialogue_turns "AI" "storytelling" 6 None = Some ts
  /\ Forall (fun t => exists e, assoc (speaker t) GOOGLE_SPEAKER_INFO = Some e) ts.
Proof.
  destruct (generate_dialogue_turns "AI" "storytelling" 6 None) as [ts|] eqn:E;
    [|discriminate E].
  exists ts. split; [reflexivity|].
  exact (generate_speakers_have_info "AI" "storytelling" 6 None ts E).
Defined.
